(** * Cart mutation and inventory settlement (routes/graphql.js)

    A shallow embedding of the GraphQL resolvers of the shop backend
    ([root] in routes/graphql.js) over an explicit model of the three
    Mongoose collections (models/Product.js, models/Cart.js,
    models/CartItem.js), followed by the properties of the cart engine.

    Modelling conventions.
    - An ObjectId is a natural number; the store carries the next
      identifier that [new Model(...)] will hand out, so identifiers are
      never reused, as with Mongo's ObjectIds.  Resolver arguments are taken
      as already-cast identifiers.
    - Numbers.  A finite binary64 number is a whole multiple of 2^-1074,
      and the model represents it by that whole number of units.  A
      product's price text is the rendering of the Float it was created
      with and stands for that number; JS multiplies it by a quantity in
      binary64, which keeps the 53 leading bits of the exact product
      ([js_mul] below).  Keeping leading bits does not depend on where the
      unit sits ([js_mul_scale]), so the sample stores read the same at any
      power-of-two scale.  A product beyond the binary64 range (Infinity in JS) is not
      modelled.  Totals are the exact sums that the accumulator, modelled
      from the spec, makes of these numbers.  Quantities and stock counts
      are integers.
    - Validation.  [save()] of a document built from request arguments
      runs the schema's [required] validators; documents already in the
      store passed them when they were created.
    - One resolver runs to completion before the next one starts, and every
      [save()] / [remove()] it issues, awaited or not, has taken effect
      when it returns.
    - [save()] writes the in-memory document back under its [_id]; a
      populated array is written back as the identifiers of its entries
      (on a consistent store, [store_inv] below, these are the stored
      identifiers). *)

From stdpp Require Import base option list gmap fin_maps strings.
From Stdlib Require Import ZArith Lia.

Open Scope Z_scope.

Abbreviation ObjectId := N (only parsing).
Abbreviation Decimal := Z (only parsing).

(** ** Documents (models/*.js) *)

Module Product.
Record t := mk {
  title : string;
  price : Decimal;
  inventory_count : Z
}.
End Product.

Module CartItem.
Record t := mk {
  product_id : ObjectId;
  cart_id : ObjectId;
  qty : Z;
  total : Decimal
}.
End CartItem.

Module Cart.
Record t := mk {
  items : list ObjectId;
  total : Decimal;
  completed : bool
}.
End Cart.

(** ** GraphQL result objects (the schema of routes/graphql.js) *)

Module CartObject.
(** [items] holds the identity of each entry of [cart.items], in order.
    The text that [x.toString()] produces for an entry is not modelled: it
    is the bare identifier in createCart and completeCart, and the text of
    the populated line item document in getCart, addProductToCart and
    removeProductFromCart (for addProductToCart the document as it was read
    with the cart, before the update of an existing line item).  Two
    records with the same [items] name the same line items; their texts
    may differ. *)
Record t := mk {
  _id : ObjectId;
  items : list ObjectId;
  total : Decimal;
  completed : bool
}.
End CartObject.

Module ProductObject.
Record t := mk {
  _id : ObjectId;
  title : string;
  price : Decimal;
  inventory_count : Z
}.
End ProductObject.

(** ** The record store *)

Record Store := mkStore {
  products : gmap N Product.t;
  carts : gmap N Cart.t;
  cart_items : gmap N CartItem.t;
  next_id : ObjectId
}.

Definition empty_store : Store := mkStore ∅ ∅ ∅ 0%N.

(** The errors the resolvers throw, one constructor per message. *)
Inductive Error :=
  | CartNotFound                       (* 404 Couldn't find cart *)
  | ProductNotFound (product_id : ObjectId)
                                       (* product (..) does not exist *)
  | InvalidQuantity (qty : Z)          (* quantity (..) has to be greater than 0 *)
  | InvalidCartId (cart_id : ObjectId) (* invalid cart id (..) *)
  | InvalidProductId (product_id : ObjectId)
                                       (* invalid product id (..) *)
  | ItemNotInCart                      (* product does not belong to cart *)
  | CartAlreadyCompleted (cart_id : ObjectId)
                                       (* cart (..) is already completed *)
  | DanglingCartItem                   (* cart contains non-existing item *)
  | InsufficientInventory (product_id : ObjectId) (inventory_count qty : Z)
                                       (* insufficient inventory for .. *)
  | DanglingProduct                    (* art contains non-existing product *)
  | TypeError                          (* property read on a null populated reference *)
  | ValidationError.                   (* a required path is empty on save() *)

(** ** Resolvers as store transformers that may throw *)

Definition Op (A : Type) : Type := Store → Store * (Error + A).

Definition ret {A} (a : A) : Op A := λ s, (s, inr a).
Definition throw {A} (e : Error) : Op A := λ s, (s, inl e).
Definition bind {A B} (m : Op A) (k : A → Op B) : Op B :=
  λ s, match m s with
       | (s', inl e) => (s', inl e)
       | (s', inr a) => k a s'
       end.
Definition gets {A} (f : Store → A) : Op A := λ s, (s, inr (f s)).
Definition modify (f : Store → Store) : Op unit := λ s, (f s, inr tt).

Notation "x <- m ;; k" := (bind m (λ x, k))
  (at level 100, m at next level, right associativity).
Notation "m ;;; k" := (bind m (λ _, k))
  (at level 100, right associativity).

(** [if (!doc) throw new Error(..)] *)
Definition or_throw {A} (o : option A) (e : Error) : Op A :=
  match o with
  | Some a => ret a
  | None => throw e
  end.

(** *** Mongoose primitives *)

(** [new Model({..})] draws a fresh [_id]. *)
Definition new_ObjectId : Op ObjectId :=
  λ s, (mkStore (products s) (carts s) (cart_items s) (N.succ (next_id s)),
        inr (next_id s)).

Definition Product_findById (id : ObjectId) : Op (option Product.t) :=
  gets (λ s, products s !! id).
Definition Cart_findById (id : ObjectId) : Op (option Cart.t) :=
  gets (λ s, carts s !! id).
Definition CartItem_findById (id : ObjectId) : Op (option CartItem.t) :=
  gets (λ s, cart_items s !! id).

Definition Product_save (id : ObjectId) (p : Product.t) : Op unit :=
  modify (λ s, mkStore (<[id := p]> (products s)) (carts s) (cart_items s) (next_id s)).
Definition Cart_save (id : ObjectId) (c : Cart.t) : Op unit :=
  modify (λ s, mkStore (products s) (<[id := c]> (carts s)) (cart_items s) (next_id s)).
Definition CartItem_save (id : ObjectId) (it : CartItem.t) : Op unit :=
  modify (λ s, mkStore (products s) (carts s) (<[id := it]> (cart_items s)) (next_id s)).
Definition CartItem_remove (id : ObjectId) : Op unit :=
  modify (λ s, mkStore (products s) (carts s) (delete id (cart_items s)) (next_id s)).

(** [Product.find(query)]: the documents the query selects. *)
Definition Product_find (query : Product.t → bool) : Op (list (ObjectId * Product.t)) :=
  gets (λ s, filter (λ kv, Is_true (query kv.2)) (map_to_list (products s))).

(** [CartItem.find({ product_id, cart_id })] *)
Definition matching_items (product_id cart_id : ObjectId) (m : gmap N CartItem.t)
    : list (ObjectId * CartItem.t) :=
  filter (λ kv, CartItem.product_id kv.2 = product_id
                ∧ CartItem.cart_id kv.2 = cart_id)
         (map_to_list m).

Definition CartItem_find (product_id cart_id : ObjectId)
    : Op (list (ObjectId * CartItem.t)) :=
  gets (λ s, matching_items product_id cart_id (cart_items s)).

(** [.populate('items')] on a cart: every identifier of the array is
    replaced by the document it refers to; identifiers that refer to no
    document are dropped from the populated array. *)
Definition populated (m : gmap N CartItem.t) (ids : list ObjectId)
    : list (ObjectId * CartItem.t) :=
  omap (λ i, (λ it, (i, it)) <$> m !! i) ids.

Definition populate_items (ids : list ObjectId) : Op (list (ObjectId * CartItem.t)) :=
  gets (λ s, populated (cart_items s) ids).

(** [.populate('product_id')] on a cart item: the product document, or
    null when there is none. *)
Definition populate_product (it : CartItem.t) : Op (option Product.t) :=
  gets (λ s, products s !! CartItem.product_id it).

(** ** Numbers *)

(** The binary64 number nearest to a whole number of units: at most 53
    leading bits are kept, and a tie goes to the even neighbour. *)
Definition round_binary64 (z : Z) : Z :=
  let a := Z.abs z in
  let e := Z.log2 a - 52 in
  if decide (e <= 0) then z else
  let q := Z.shiftr a e in
  let r := a - Z.shiftl q e in
  let half := Z.shiftl 1 (e - 1) in
  let q' := if decide (r < half) then q
            else if decide (half < r) then q + 1
            else if Z.even q then q else q + 1 in
  Z.sgn z * Z.shiftl q' e.

(** [a * b] in JS, one operand a number in units and the other a count.
    Binary64 multiplication is commutative and commutes with negation, and
    [-1 * x] is the exact negation of [x]: the resolvers' [-1 * a * b] is
    written [- js_mul a b] below (see [minus_one_js_mul]). *)
Definition js_mul (a b : Z) : Z := round_binary64 (a * b).

Arguments js_mul : simpl never.

(** A number that binary64 holds exactly. *)
Definition binary64 (z : Z) : Prop := round_binary64 z = z.

(** ** lib.addToTotal *)

(** Modelled from the spec: lib/lib.js, which defines [addToTotal], is not
    among the sources.  The Decimal Accumulator "adds a signed amount to a
    base decimal value ... returning a new decimal text value", with "no
    rounding beyond fixed-point addition". *)
Definition addToTotal (base : Decimal) (delta : Z) : Decimal := base + delta.

(** ** The resolvers ([root] in routes/graphql.js) *)

Definition cart_object (cart_id : ObjectId) (items : list ObjectId)
    (total : Decimal) (completed : bool) : CartObject.t :=
  CartObject.mk cart_id items total completed.

Definition product_object (kv : ObjectId * Product.t) : ProductObject.t :=
  ProductObject.mk kv.1 (Product.title kv.2) (Product.price kv.2)
                   (Product.inventory_count kv.2).

Definition getCart (cart_id : ObjectId) : Op CartObject.t :=
  crt <- Cart_findById cart_id ;;
  cart <- or_throw crt CartNotFound ;;
  items <- populate_items (Cart.items cart) ;;
  ret (cart_object cart_id items.*1 (Cart.total cart) false).

Definition getProductById (product_id : ObjectId) : Op ProductObject.t :=
  prod <- Product_findById product_id ;;
  product <- or_throw prod (ProductNotFound product_id) ;;
  ret (product_object (product_id, product)).

Definition getProductByTitle (product_title : string) : Op (list ProductObject.t) :=
  prods <- Product_find (λ p, bool_decide (Product.title p = product_title)) ;;
  ret (product_object <$> prods).

Definition getAllProducts (filter_no_inventory : bool) : Op (list ProductObject.t) :=
  let query := if filter_no_inventory
               then (λ p, bool_decide (0 < Product.inventory_count p))
               else (λ _, true) in
  prods <- Product_find query ;;
  ret (product_object <$> prods).

Definition createCart : Op CartObject.t :=
  cart_id <- new_ObjectId ;;
  let cart := Cart.mk [] 0 false in
  Cart_save cart_id cart ;;;
  ret (cart_object cart_id (Cart.items cart) (Cart.total cart) (Cart.completed cart)).

(** The [required] validators of models/Product.js as [save()] runs them
    on a new product: a String path must not be empty.  The price is a
    Float rendered as text and the count an Int, neither can be empty. *)
Definition Product_validate (product : Product.t) : Op unit :=
  if decide (Product.title product = EmptyString) then throw ValidationError
  else ret tt.

Definition createProduct (title : string) (price : Decimal) (inventory_count : Z)
    : Op ProductObject.t :=
  product_id <- new_ObjectId ;;
  let product := Product.mk title price inventory_count in
  Product_validate product ;;;
  Product_save product_id product ;;;
  ret (product_object (product_id, product)).

(** The loop [for (i = 0; i < cart.items.length; i++) if (cart.items[i]._id
    == cart_item._id) index = i], started with [index = -1]: the last
    position holding the identifier, or the initial value. *)
Fixpoint find_index (id : ObjectId) (items : list (ObjectId * CartItem.t))
    (i index : Z) : Z :=
  match items with
  | [] => index
  | x :: rest => find_index id rest (i + 1) (if decide (x.1 = id) then i else index)
  end.

(** [array.splice(index, 1)]: a negative start counts from the end. *)
Definition splice1 {A} (index : Z) (l : list A) : list A :=
  let len := Z.of_nat (length l) in
  let start := if decide (index < 0) then Z.max (len + index) 0 else Z.min index len in
  delete (Z.to_nat start) l.

(** [array[index] = x]; at index -1 this sets a property and no element. *)
Definition set_index {A} (index : Z) (x : A) (l : list A) : list A :=
  if decide (index < 0) then l else <[Z.to_nat index := x]> l.

Definition removeProductFromCart (product_id cart_id : ObjectId) (qty : Z)
    : Op CartObject.t :=
  if decide (qty <= 0) then throw (InvalidQuantity qty) else
  crt <- Cart_findById cart_id ;;
  cart <- or_throw crt (InvalidCartId cart_id) ;;
  items <- populate_items (Cart.items cart) ;;
  crt_items <- CartItem_find product_id cart_id ;;
  match crt_items with
  | [] => throw ItemNotInCart
  | (item_id, found) :: _ =>
    prod <- populate_product found ;;
    product <- or_throw prod TypeError ;;
    let price := Product.price product in
    let cart_item :=
      CartItem.mk (CartItem.product_id found) (CartItem.cart_id found)
                  (CartItem.qty found - qty)
                  (addToTotal (CartItem.total found) (- js_mul price qty)) in
    let index := find_index item_id items 0 (-1) in
    if decide (CartItem.qty cart_item <= 0) then
      let items' := splice1 index items in
      let total := addToTotal (Cart.total cart)
                              (- js_mul (qty + CartItem.qty cart_item) price) in
      CartItem_remove item_id ;;;
      Cart_save cart_id (Cart.mk items'.*1 total (Cart.completed cart)) ;;;
      ret (cart_object cart_id items'.*1 total (Cart.completed cart))
    else
      CartItem_save item_id cart_item ;;;
      let items' := set_index index (item_id, cart_item) items in
      let total := addToTotal (Cart.total cart) (- js_mul qty price) in
      Cart_save cart_id (Cart.mk items'.*1 total (Cart.completed cart)) ;;;
      ret (cart_object cart_id items'.*1 total (Cart.completed cart))
  end.

Definition addProductToCart (product_id cart_id : ObjectId) (qty : Z)
    : Op CartObject.t :=
  if decide (qty <= 0) then throw (InvalidQuantity qty) else
  crt <- Cart_findById cart_id ;;
  cart <- or_throw crt (InvalidCartId cart_id) ;;
  items <- populate_items (Cart.items cart) ;;
  prod <- Product_findById product_id ;;
  product <- or_throw prod (InvalidProductId product_id) ;;
  crt_items <- CartItem_find product_id cart_id ;;
  let total := addToTotal (Cart.total cart) (js_mul (Product.price product) qty) in
  match crt_items with
  | (item_id, found) :: _ =>
    let cart_item :=
      CartItem.mk (CartItem.product_id found) (CartItem.cart_id found)
                  (CartItem.qty found + qty)
                  (addToTotal (CartItem.total found)
                              (js_mul (Product.price product) qty)) in
    CartItem_save item_id cart_item ;;;
    Cart_save cart_id (Cart.mk items.*1 total (Cart.completed cart)) ;;;
    ret (cart_object cart_id items.*1 total (Cart.completed cart))
  | [] =>
    item_id <- new_ObjectId ;;
    let cart_item :=
      CartItem.mk product_id cart_id qty
                  (addToTotal 0 (js_mul (Product.price product) qty)) in
    CartItem_save item_id cart_item ;;;
    let items' := items ++ [(item_id, cart_item)] in
    Cart_save cart_id (Cart.mk items'.*1 total (Cart.completed cart)) ;;;
    ret (cart_object cart_id items'.*1 total (Cart.completed cart))
  end.

(** First loop of completeCart: resolve every line item with its product
    and compare the stock with the requested quantity. *)
Fixpoint check_inventory (ids : list ObjectId) (cart_items : list CartItem.t)
    : Op (list CartItem.t) :=
  match ids with
  | [] => ret cart_items
  | id :: rest =>
    found <- CartItem_findById id ;;
    crt_item <- or_throw found DanglingCartItem ;;
    prod <- populate_product crt_item ;;
    product <- or_throw prod TypeError ;;
    if decide (Product.inventory_count product < CartItem.qty crt_item) then
      throw (InsufficientInventory (CartItem.product_id crt_item)
                                   (Product.inventory_count product)
                                   (CartItem.qty crt_item))
    else check_inventory rest (cart_items ++ [crt_item])
  end.

(** Second loop of completeCart: re-read each product and subtract. *)
Fixpoint update_inventories (cart_items : list CartItem.t) : Op unit :=
  match cart_items with
  | [] => ret tt
  | crt_item :: rest =>
    found <- Product_findById (CartItem.product_id crt_item) ;;
    prod <- or_throw found DanglingProduct ;;
    Product_save (CartItem.product_id crt_item)
                 (Product.mk (Product.title prod) (Product.price prod)
                             (Product.inventory_count prod - CartItem.qty crt_item)) ;;;
    update_inventories rest
  end.

Definition completeCart (cart_id : ObjectId) : Op CartObject.t :=
  crt <- Cart_findById cart_id ;;
  cart <- or_throw crt (InvalidCartId cart_id) ;;
  if Cart.completed cart then throw (CartAlreadyCompleted cart_id) else
  cart_items <- check_inventory (Cart.items cart) [] ;;
  update_inventories cart_items ;;;
  Cart_save cart_id (Cart.mk (Cart.items cart) (Cart.total cart) true) ;;;
  ret (cart_object cart_id (Cart.items cart) (Cart.total cart) true).

(** ** Requests: one constructor per field of [root] *)

Inductive Request :=
  | GetCart (cart_id : ObjectId)
  | GetProductById (product_id : ObjectId)
  | GetProductByTitle (product_title : string)
  | GetAllProducts (filter_no_inventory : bool)
  | CreateCart
  | CreateProduct (title : string) (price : Decimal) (inventory_count : Z)
  | AddProductToCart (product_id cart_id : ObjectId) (qty : Z)
  | RemoveProductFromCart (product_id cart_id : ObjectId) (qty : Z)
  | CompleteCart (cart_id : ObjectId).

Inductive Response :=
  | CartResponse (cart : CartObject.t)
  | ProductResponse (product : ProductObject.t)
  | ProductsResponse (products : list ProductObject.t).

Definition root (r : Request) : Op Response :=
  match r with
  | GetCart cart_id => c <- getCart cart_id ;; ret (CartResponse c)
  | GetProductById product_id => p <- getProductById product_id ;; ret (ProductResponse p)
  | GetProductByTitle t => ps <- getProductByTitle t ;; ret (ProductsResponse ps)
  | GetAllProducts f => ps <- getAllProducts f ;; ret (ProductsResponse ps)
  | CreateCart => c <- createCart ;; ret (CartResponse c)
  | CreateProduct t p n => p <- createProduct t p n ;; ret (ProductResponse p)
  | AddProductToCart p c q => c <- addProductToCart p c q ;; ret (CartResponse c)
  | RemoveProductFromCart p c q => c <- removeProductFromCart p c q ;; ret (CartResponse c)
  | CompleteCart c => c <- completeCart c ;; ret (CartResponse c)
  end.

(** The store after serving a request, and after a sequence of requests. *)
Definition exec (r : Request) (s : Store) : Store := (root r s).1.

Definition exec_all (rs : list Request) (s : Store) : Store :=
  foldl (λ s r, exec r s) s rs.

(** The adds of a sequence, all on one cart; [None] as soon as one of them
    throws. *)
Fixpoint add_all (cart_id : ObjectId) (adds : list (ObjectId * Z)) (s : Store)
    : option Store :=
  match adds with
  | [] => Some s
  | (product_id, qty) :: rest =>
    match addProductToCart product_id cart_id qty s with
    | (s', inr _) => add_all cart_id rest s'
    | (_, inl _) => None
    end
  end.

(** ** Consistency of a store *)

(** What the resolvers maintain between the three collections. *)
Record store_inv (s : Store) : Prop := {
  (* every entry of a cart's item array is a live line item of that cart *)
  inv_resolve : ∀ c cart i, carts s !! c = Some cart → i ∈ Cart.items cart →
    ∃ it, cart_items s !! i = Some it ∧ CartItem.cart_id it = c;
  inv_nodup : ∀ c cart, carts s !! c = Some cart → NoDup (Cart.items cart);
  (* every live line item is listed by the cart that owns it *)
  inv_owned : ∀ i it, cart_items s !! i = Some it →
    ∃ cart, carts s !! CartItem.cart_id it = Some cart ∧ i ∈ Cart.items cart;
  (* at most one live line item per (cart, product) pair *)
  inv_pair : ∀ i j it jt, cart_items s !! i = Some it → cart_items s !! j = Some jt →
    CartItem.product_id it = CartItem.product_id jt →
    CartItem.cart_id it = CartItem.cart_id jt → i = j;
  inv_product : ∀ i it, cart_items s !! i = Some it →
    is_Some (products s !! CartItem.product_id it);
  inv_qty : ∀ i it, cart_items s !! i = Some it → 0 < CartItem.qty it;
  (* identifiers in use were handed out before *)
  inv_products_below : ∀ i, is_Some (products s !! i) → (i < next_id s)%N;
  inv_carts_below : ∀ i, is_Some (carts s !! i) → (i < next_id s)%N;
  inv_items_below : ∀ i, is_Some (cart_items s !! i) → (i < next_id s)%N
}.


(** The stored total of a line item, and its value [price * qty]. *)
Definition item_total (s : Store) (i : ObjectId) : Decimal :=
  from_option CartItem.total 0 (cart_items s !! i).

Definition item_value (s : Store) (i : ObjectId) : Decimal :=
  match cart_items s !! i with
  | Some it =>
    match products s !! CartItem.product_id it with
    | Some p => Product.price p * CartItem.qty it
    | None => 0
    end
  | None => 0
  end.

Definition sum_over (f : ObjectId → Z) (ids : list ObjectId) : Z :=
  foldr (λ i acc, f i + acc) 0 ids.

(** [price * qty] of a line item has at most 53 bits: binary64 holds it
    and every smaller multiple of the price exactly. *)
Definition item_small (s : Store) (i : ObjectId) : Prop :=
  Z.abs (item_value s i) < 2 ^ 53.

(** The totals of one cart agree with its line items: the cart's total is
    the sum of their totals, and the total of a line item whose
    [price * qty] is small is that product. *)
Definition cart_totals (s : Store) (c : ObjectId) : Prop :=
  ∀ cart, carts s !! c = Some cart →
    (∀ i, i ∈ Cart.items cart → item_small s i → item_total s i = item_value s i)
    ∧ Cart.total cart = sum_over (item_total s) (Cart.items cart).

(** The totals of a whole store: every line item's total is the price of
    its product times its qty, and every cart's total is the sum of the
    totals of the line items it lists. *)
Record totals_ok (s : Store) : Prop := {
  totals_items : ∀ i it p, cart_items s !! i = Some it →
    products s !! CartItem.product_id it = Some p →
    CartItem.total it = Product.price p * CartItem.qty it;
  totals_carts : ∀ c cart, carts s !! c = Some cart →
    Cart.total cart = sum_over (item_total s) (Cart.items cart)
}.

(** Every line item's [price * qty] is small. *)
Definition amounts_small (s : Store) : Prop :=
  map_Forall (λ i _, item_small s i) (cart_items s).

#[global] Instance item_small_dec s i : Decision (item_small s i).
Proof. unfold item_small. apply _. Defined.

#[global] Instance amounts_small_dec s : Decision (amounts_small s).
Proof. unfold amounts_small. apply _. Defined.

(** The amounts are small in [s] and in every store that serving the
    requests [rs] one after the other leads through. *)
Fixpoint small_run (rs : list Request) (s : Store) : Prop :=
  amounts_small s
  ∧ match rs with
    | [] => True
    | r :: rs' => small_run rs' (exec r s)
    end.

(** The same store with every stock count rewritten by [f]. *)
Definition with_inventory (f : Z → Z) (s : Store) : Store :=
  mkStore ((λ p, Product.mk (Product.title p) (Product.price p)
                            (f (Product.inventory_count p))) <$> products s)
          (carts s) (cart_items s) (next_id s).

(** ** Closed forms of the resolvers' effects *)

(** What addProductToCart does once the cart and the product are found. *)
Definition add_result (product_id cart_id : ObjectId) (qty : Z) (s : Store)
    (cart : Cart.t) (product : Product.t) : Store * (Error + CartObject.t) :=
  let ids := (populated (cart_items s) (Cart.items cart)).*1 in
  let total := Cart.total cart + js_mul (Product.price product) qty in
  match matching_items product_id cart_id (cart_items s) with
  | (i, it) :: _ =>
    (mkStore (products s)
             (<[cart_id := Cart.mk ids total (Cart.completed cart)]> (carts s))
             (<[i := CartItem.mk (CartItem.product_id it) (CartItem.cart_id it)
                      (CartItem.qty it + qty)
                      (CartItem.total it + js_mul (Product.price product) qty)]>
                (cart_items s))
             (next_id s),
     inr (cart_object cart_id ids total (Cart.completed cart)))
  | [] =>
    (mkStore (products s)
             (<[cart_id := Cart.mk (ids ++ [next_id s]) total (Cart.completed cart)]>
                (carts s))
             (<[next_id s := CartItem.mk product_id cart_id qty
                               (0 + js_mul (Product.price product) qty)]>
                (cart_items s))
             (N.succ (next_id s)),
     inr (cart_object cart_id (ids ++ [next_id s]) total (Cart.completed cart)))
  end.

(** What removeProductFromCart does once the cart, the line item and its
    product are found. *)
Definition remove_result (cart_id : ObjectId) (qty : Z) (s : Store)
    (cart : Cart.t) (i : ObjectId) (it : CartItem.t) (product : Product.t)
    : Store * (Error + CartObject.t) :=
  let items := populated (cart_items s) (Cart.items cart) in
  let price := Product.price product in
  let index := find_index i items 0 (-1) in
  if decide (CartItem.qty it - qty <= 0) then
    let ids := (splice1 index items).*1 in
    let total := Cart.total cart + - js_mul (qty + (CartItem.qty it - qty)) price in
    (mkStore (products s)
             (<[cart_id := Cart.mk ids total (Cart.completed cart)]> (carts s))
             (delete i (cart_items s)) (next_id s),
     inr (cart_object cart_id ids total (Cart.completed cart)))
  else
    let it' := CartItem.mk (CartItem.product_id it) (CartItem.cart_id it)
                 (CartItem.qty it - qty)
                 (CartItem.total it + - js_mul price qty) in
    let ids := (set_index index (i, it') items).*1 in
    let total := Cart.total cart + - js_mul qty price in
    (mkStore (products s)
             (<[cart_id := Cart.mk ids total (Cart.completed cart)]> (carts s))
             (<[i := it']> (cart_items s)) (next_id s),
     inr (cart_object cart_id ids total (Cart.completed cart))).

(** A product after [n] units left the stock. *)
Definition take_stock (n : Z) (p : Product.t) : Product.t :=
  Product.mk (Product.title p) (Product.price p) (Product.inventory_count p - n).

(** The quantity of product [p] in a list of line items. *)
Definition quantity_of (p : ObjectId) (its : list CartItem.t) : Z :=
  foldr (λ it acc, (if decide (CartItem.product_id it = p)
                    then CartItem.qty it else 0) + acc) 0 its.

(** The line items an array of identifiers resolves to. *)
Definition resolved (m : gmap N CartItem.t) (ids : list ObjectId) : list CartItem.t :=
  omap (λ i, m !! i) ids.

Ltac unfold_op :=
  unfold bind, ret, throw, gets, modify, or_throw, new_ObjectId,
    Product_findById, Cart_findById, CartItem_findById,
    Product_save, Cart_save, CartItem_save, CartItem_remove,
    Product_find, CartItem_find, populate_items, populate_product; simpl.

(** ** Sample stores *)

(** Two products and an empty cart: products 0 and 1, cart 2. *)
Definition shop : Store :=
  exec_all [CreateProduct "P" 10 5; CreateProduct "Q" 7 2; CreateCart] empty_store.

(** The cart holds 3 of P and 2 of Q (line items 3 and 4). *)
Definition shop_filled : Store :=
  exec_all [AddProductToCart 0 2 3; AddProductToCart 1 2 2] shop.

(** The cart asks for 6 of P, of which 5 are in stock (line item 3). *)
Definition shop_oversubscribed : Store :=
  exec_all [AddProductToCart 0 2 6] shop.

(** The filled cart after completion. *)
Definition shop_completed : Store := exec (CompleteCart 2) shop_filled.

(** The cart asks for 3 of P (5 in stock) and then 5 of Q (2 in stock):
    line items 3 and 4. *)
Definition shop_second_short : Store :=
  exec_all [AddProductToCart 0 2 3; AddProductToCart 1 2 5] shop.

(** One product priced 94906267, and a cart holding 94906267 of it (line
    item 2): the exact product 9007199515875289 has 54 bits. *)
Definition shop_big : Store :=
  exec_all [CreateProduct "B" 94906267 1; CreateCart;
            AddProductToCart 0 1 94906267] empty_store.

(** A product created with a negative stock count, and an empty cart. *)
Definition shop_negative : Store :=
  exec_all [CreateProduct "R" 3 (-4); CreateCart] empty_store.

(** A cart whose item array names a line item that does not exist. *)
Definition shop_dangling : Store :=
  mkStore (products shop) (<[2%N := Cart.mk [9%N] 0 false]> (carts shop))
          (cart_items shop) 10.

(** ** Properties *)

(** *** Numbers *)

Lemma round_binary64_small z : Z.abs z < 2 ^ 53 → round_binary64 z = z.
Proof.
  intros Hz. unfold round_binary64. rewrite decide_True; [done|].
  destruct (decide (Z.abs z = 0)) as [->|Hne]; [done|].
  assert (Z.log2 (Z.abs z) < 53); [|lia].
  apply Z.log2_lt_pow2; lia.
Qed.

Lemma round_binary64_opp z : round_binary64 (- z) = - round_binary64 z.
Proof.
  unfold round_binary64. rewrite Z.abs_opp, Z.sgn_opp.
  case_decide; [done|]. lia.
Qed.

Lemma js_mul_exact a b : Z.abs (a * b) < 2 ^ 53 → js_mul a b = a * b.
Proof. apply round_binary64_small. Qed.

Lemma js_mul_comm a b : js_mul a b = js_mul b a.
Proof. unfold js_mul. by rewrite Z.mul_comm. Qed.

(** A multiple of the price that is small has small parts. *)
Lemma small_parts p a b B :
  0 < a → 0 < b → Z.abs (p * (a + b)) < B →
  Z.abs (p * a) < B ∧ Z.abs (p * b) < B.
Proof.
  intros Ha Hb. rewrite !Z.abs_mul.
  rewrite (Z.abs_eq a), (Z.abs_eq b), (Z.abs_eq (a + b)) by lia.
  pose proof (Z.abs_nonneg p). nia.
Qed.

(** [-1 * a * b], evaluated left to right as JS does, is the negation of
    [a * b] for a binary64 number [a]. *)
Lemma minus_one_js_mul a b :
  binary64 a → js_mul (js_mul (-1) a) b = - js_mul a b.
Proof.
  unfold binary64, js_mul. intros Ha.
  replace (-1 * a) with (- a) by lia. rewrite round_binary64_opp, Ha.
  replace (- a * b) with (- (a * b)) by lia. apply round_binary64_opp.
Qed.

(** Rounding keeps leading bits, wherever the unit sits: a number and its
    multiples by powers of two round alike. *)
Lemma round_binary64_scale z k :
  0 <= k → round_binary64 (z * 2 ^ k) = round_binary64 z * 2 ^ k.
Proof.
  intros Hk. destruct (decide (z = 0)) as [->|Hz]; [done|].
  assert (0 < 2 ^ k) as Hpow by (by apply Z.pow_pos_nonneg).
  assert (0 < Z.abs z) as Ha by lia.
  unfold round_binary64.
  rewrite Z.abs_mul, (Z.abs_eq (2 ^ k)), Z.log2_mul_pow2 by lia.
  rewrite Z.sgn_mul, (Z.sgn_pos (2 ^ k)), Z.mul_1_r by lia.
  set (a := Z.abs z) in *. set (e := Z.log2 a - 52).
  replace (k + Z.log2 a - 52) with (e + k) by lia.
  destruct (decide (e + k <= 0)) as [Hek|Hek].
  { by rewrite (decide_True (P := e <= 0)) by lia. }
  rewrite !Z.shiftr_div_pow2, !Z.shiftl_mul_pow2, !Z.mul_1_l by lia.
  destruct (decide (e <= 0)) as [He|He].
  - (* the scaled number leaves the exact range with nothing to drop *)
    assert (a * 2 ^ k = a * 2 ^ (- e) * 2 ^ (e + k)) as Hsplit.
    { rewrite <- Z.mul_assoc, <- Z.pow_add_r by lia. do 2 f_equal. lia. }
    assert (0 < 2 ^ (e + k)) by (apply Z.pow_pos_nonneg; lia).
    assert (0 < 2 ^ (e + k - 1)) by (apply Z.pow_pos_nonneg; lia).
    assert (a * 2 ^ k / 2 ^ (e + k) = a * 2 ^ (- e)) as ->.
    { rewrite Hsplit. apply Z.div_mul. lia. }
    rewrite decide_True by lia.
    rewrite <- Hsplit. pose proof (Z.sgn_abs z) as Hsgn. fold a in Hsgn. lia.
  - assert (0 < 2 ^ e) by (apply Z.pow_pos_nonneg; lia).
    assert (2 ^ (e + k) = 2 ^ e * 2 ^ k) as Hsum by (apply Z.pow_add_r; lia).
    assert (2 ^ (e + k - 1) = 2 ^ (e - 1) * 2 ^ k) as Hsum'.
    { rewrite <- Z.pow_add_r by lia. f_equal. lia. }
    rewrite !Z.shiftr_div_pow2, !Z.shiftl_mul_pow2, ?Z.mul_1_l by lia.
    rewrite Hsum, Hsum', Z.div_mul_cancel_r by lia.
    set (q := a / 2 ^ e).
    assert (∀ x y, x * 2 ^ k < y * 2 ^ k ↔ x < y) as Hlt by (intros; nia).
    replace (a * 2 ^ k - q * (2 ^ e * 2 ^ k)) with ((a - q * 2 ^ e) * 2 ^ k) by lia.
    set (r := a - q * 2 ^ e). set (h := 2 ^ (e - 1)).
    pose proof (Hlt r h) as Hrh. pose proof (Hlt h r) as Hhr.
    pose proof (Z.sgn_abs z) as Hsgn.
    repeat case_decide; try (exfalso; tauto);
      try destruct (Z.even q); ring.
Qed.

Lemma js_mul_scale a b k : 0 <= k → js_mul (a * 2 ^ k) b = js_mul a b * 2 ^ k.
Proof.
  intros Hk. unfold js_mul. rewrite <- round_binary64_scale by done.
  f_equal. ring.
Qed.

(** *** Arrays: populate, the index loop, splice *)

Section arrays.
Context (m : gmap N CartItem.t).

Lemma populated_fst_resolved (ids : list N) :
  (∀ i, i ∈ ids → is_Some (m !! i)) → (populated m ids).*1 = ids.
Proof.
  unfold populated. induction ids as [|i ids IH]; intros Hall; [done|].
  destruct (Hall i) as [it Hit]; [by left|].
  simpl. rewrite Hit. simpl. f_equal. apply IH.
  intros j Hj. apply Hall. by right.
Qed.

End arrays.

Lemma find_index_absent id (l : list (N * CartItem.t)) i index :
  id ∉ l.*1 → find_index id l i index = index.
Proof.
  revert i index. induction l as [|x l IH]; intros i index Hid; [done|].
  simpl in *. apply not_elem_of_cons in Hid as [Hne Hid].
  rewrite decide_False by done. by apply IH.
Qed.

Lemma find_index_present id (l : list (N * CartItem.t)) i index k :
  NoDup l.*1 → l.*1 !! k = Some id →
  find_index id l i index = i + Z.of_nat k.
Proof.
  revert i index k. induction l as [|x l IH]; intros i index k Hnd Hk; [done|].
  simpl in *. apply NoDup_cons in Hnd as [Hx Hnd].
  destruct k as [|k]; simpl in *.
  - injection Hk as Hk. rewrite decide_True by done.
    rewrite find_index_absent by (by rewrite <- Hk). lia.
  - rewrite decide_False.
    + rewrite (IH _ _ k) by done. lia.
    + intros Heq. apply Hx. rewrite Heq. by eapply list_elem_of_lookup_2.
Qed.

Lemma splice1_in_range {A} (l : list A) k :
  (k < length l)%nat → splice1 (Z.of_nat k) l = delete k l.
Proof.
  intros Hk. unfold splice1. rewrite decide_False by lia.
  rewrite Z.min_l by lia. by rewrite Nat2Z.id.
Qed.

Lemma set_index_in_range {A} (l : list A) k x :
  set_index (Z.of_nat k) x l = <[k := x]> l.
Proof. unfold set_index. rewrite decide_False by lia. by rewrite Nat2Z.id. Qed.

Lemma fmap_fst_delete {A B} (l : list (A * B)) k :
  (delete k l).*1 = delete k l.*1.
Proof.
  revert k. induction l as [|x l IH]; intros [|k]; simpl; try done.
  by rewrite IH.
Qed.

Lemma fmap_fst_insert_same {A B} (l : list (A * B)) k a b :
  l.*1 !! k = Some a → (<[k := (a, b)]> l).*1 = l.*1.
Proof.
  intros Hk. rewrite list_fmap_insert. simpl. by apply list_insert_id.
Qed.


Lemma elem_of_delete_NoDup {A} (l : list A) k x y :
  NoDup l → l !! k = Some x → y ∈ delete k l ↔ y ∈ l ∧ y ≠ x.
Proof.
  revert k. induction l as [|z l IH]; intros k Hnd Hk; [done|].
  apply NoDup_cons in Hnd as [Hz Hnd].
  destruct k as [|k]; simpl in *.
  - injection Hk as ->. rewrite elem_of_cons. split.
    + intros Hy. split; [by right|]. by intros ->.
    + intros [[->|Hy] Hne]; done.
  - rewrite !elem_of_cons, (IH k) by done. split.
    + intros [->|[Hy Hne]].
      * split; [by left|]. intros ->. apply Hz. by eapply list_elem_of_lookup_2.
      * split; [by right|done].
    + intros [[->|Hy] Hne]; [by left|by right].
Qed.

Lemma NoDup_delete_index {A} (l : list A) k : NoDup l → NoDup (delete k l).
Proof.
  intros Hnd. exact (sublist_NoDup _ _ Hnd (sublist_delete l k)).
Qed.

(** *** [CartItem.find] *)

Lemma elem_of_matching_items p c (m : gmap N CartItem.t) i it :
  (i, it) ∈ matching_items p c m ↔
  m !! i = Some it ∧ CartItem.product_id it = p ∧ CartItem.cart_id it = c.
Proof.
  unfold matching_items. rewrite list_elem_of_filter, elem_of_map_to_list.
  simpl. tauto.
Qed.

Lemma matching_items_nil p c (m : gmap N CartItem.t) :
  matching_items p c m = [] ↔
  ∀ i it, m !! i = Some it →
    ¬ (CartItem.product_id it = p ∧ CartItem.cart_id it = c).
Proof.
  split.
  - intros Hnil i it Hi Hpc.
    assert ((i, it) ∈ matching_items p c m) as Hin
      by (apply elem_of_matching_items; tauto).
    rewrite Hnil in Hin. by apply elem_of_nil in Hin.
  - intros Hnone. destruct (matching_items p c m) as [|[i it] l] eqn:E; [done|].
    assert ((i, it) ∈ matching_items p c m) as Hin by (rewrite E; left).
    apply elem_of_matching_items in Hin as (Hi & Hp & Hc).
    destruct (Hnone i it Hi). done.
Qed.

Lemma matching_items_head p c (m : gmap N CartItem.t) i it l :
  matching_items p c m = (i, it) :: l →
  m !! i = Some it ∧ CartItem.product_id it = p ∧ CartItem.cart_id it = c.
Proof.
  intros E. apply elem_of_matching_items. rewrite E. left.
Qed.

Lemma matching_items_unique p c (m : gmap N CartItem.t) i it :
  (∀ i j it jt, m !! i = Some it → m !! j = Some jt →
    CartItem.product_id it = CartItem.product_id jt →
    CartItem.cart_id it = CartItem.cart_id jt → i = j) →
  m !! i = Some it → CartItem.product_id it = p → CartItem.cart_id it = c →
  ∃ l, matching_items p c m = (i, it) :: l.
Proof.
  intros Huniq Hi Hp Hc.
  destruct (matching_items p c m) as [|[j jt] l] eqn:E.
  - exfalso. eapply matching_items_nil; eauto.
  - apply matching_items_head in E as (Hj & Hp' & Hc').
    assert (j = i) as -> by (eapply Huniq; eauto; congruence).
    exists l. congruence.
Qed.

(** *** The resolvers in closed form *)

Lemma addProductToCart_eq product_id cart_id qty s :
  addProductToCart product_id cart_id qty s =
  if decide (qty <= 0) then (s, inl (InvalidQuantity qty)) else
  match carts s !! cart_id with
  | None => (s, inl (InvalidCartId cart_id))
  | Some cart =>
    match products s !! product_id with
    | None => (s, inl (InvalidProductId product_id))
    | Some product => add_result product_id cart_id qty s cart product
    end
  end.
Proof.
  unfold addProductToCart, add_result, addToTotal. case_decide; [done|].
  unfold_op. destruct (carts s !! cart_id) as [cart|]; simpl; [|done].
  destruct (products s !! product_id) as [product|]; simpl; [|done].
  destruct (matching_items _ _ _) as [|[i it] l]; simpl.
  - by rewrite fmap_app.
  - done.
Qed.

Lemma removeProductFromCart_eq product_id cart_id qty s :
  removeProductFromCart product_id cart_id qty s =
  if decide (qty <= 0) then (s, inl (InvalidQuantity qty)) else
  match carts s !! cart_id with
  | None => (s, inl (InvalidCartId cart_id))
  | Some cart =>
    match matching_items product_id cart_id (cart_items s) with
    | [] => (s, inl ItemNotInCart)
    | (i, it) :: _ =>
      match products s !! CartItem.product_id it with
      | None => (s, inl TypeError)
      | Some product => remove_result cart_id qty s cart i it product
      end
    end
  end.
Proof.
  unfold removeProductFromCart, remove_result, addToTotal. case_decide; [done|].
  unfold_op. destruct (carts s !! cart_id) as [cart|]; simpl; [|done].
  destruct (matching_items _ _ _) as [|[i it] l]; simpl; [done|].
  unfold_op. destruct (products s !! CartItem.product_id it) as [product|];
    simpl; [|done].
  case_decide; done.
Qed.

Lemma getCart_eq cart_id s :
  getCart cart_id s =
  match carts s !! cart_id with
  | None => (s, inl CartNotFound)
  | Some cart =>
    (s, inr (cart_object cart_id (populated (cart_items s) (Cart.items cart)).*1
                         (Cart.total cart) false))
  end.
Proof. unfold getCart. unfold_op. by destruct (carts s !! cart_id). Qed.

Lemma createCart_eq s :
  createCart s =
  (mkStore (products s) (<[next_id s := Cart.mk [] 0 false]> (carts s))
           (cart_items s) (N.succ (next_id s)),
   inr (cart_object (next_id s) [] 0 false)).
Proof. done. Qed.

Lemma createProduct_eq title price inventory_count s :
  createProduct title price inventory_count s =
  if decide (title = EmptyString) then
    (mkStore (products s) (carts s) (cart_items s) (N.succ (next_id s)),
     inl ValidationError)
  else
    (mkStore (<[next_id s := Product.mk title price inventory_count]> (products s))
             (carts s) (cart_items s) (N.succ (next_id s)),
     inr (ProductObject.mk (next_id s) title price inventory_count)).
Proof.
  unfold createProduct, Product_validate. unfold_op. by case_decide.
Qed.

(** *** The two loops of completeCart *)

Lemma check_inventory_store ids acc s : (check_inventory ids acc s).1 = s.
Proof.
  revert acc. induction ids as [|i ids IH]; intros acc; simpl; [done|].
  unfold_op. destruct (cart_items s !! i) as [it|]; simpl; [|done].
  unfold_op. destruct (products s !! CartItem.product_id it) as [p|]; simpl; [|done].
  case_decide; [done|]. apply IH.
Qed.

Lemma check_inventory_ok ids acc s :
  (∀ i, i ∈ ids → ∃ it p, cart_items s !! i = Some it
      ∧ products s !! CartItem.product_id it = Some p
      ∧ CartItem.qty it <= Product.inventory_count p) →
  check_inventory ids acc s = (s, inr (acc ++ resolved (cart_items s) ids)).
Proof.
  revert acc. induction ids as [|i ids IH]; intros acc Hall; simpl.
  { by rewrite app_nil_r. }
  destruct (Hall i) as (it & p & Hit & Hp & Hle); [by left|].
  unfold_op. rewrite Hit. simpl. unfold_op. rewrite Hp. simpl.
  rewrite decide_False by lia. rewrite IH.
  - by rewrite <- app_assoc.
  - intros j Hj. apply Hall. by right.
Qed.

Lemma check_inventory_insufficient ids acc s :
  (∀ i, i ∈ ids → ∃ it, cart_items s !! i = Some it
      ∧ is_Some (products s !! CartItem.product_id it)) →
  (∃ i it p, i ∈ ids ∧ cart_items s !! i = Some it
      ∧ products s !! CartItem.product_id it = Some p
      ∧ Product.inventory_count p < CartItem.qty it) →
  ∃ i it p, i ∈ ids ∧ cart_items s !! i = Some it
      ∧ products s !! CartItem.product_id it = Some p
      ∧ Product.inventory_count p < CartItem.qty it
      ∧ check_inventory ids acc s =
          (s, inl (InsufficientInventory (CartItem.product_id it)
                     (Product.inventory_count p) (CartItem.qty it))).
Proof.
  revert acc. induction ids as [|i ids IH]; intros acc Hall Hbad.
  { destruct Hbad as (i & it & p & Hi & _). by apply elem_of_nil in Hi. }
  destruct (Hall i) as (it & Hit & [p Hp]); [by left|].
  simpl. unfold_op. rewrite Hit. simpl. unfold_op. rewrite Hp. simpl.
  case_decide as Hlt.
  - exists i, it, p. split; [by left|]. done.
  - destruct (IH (acc ++ [it])) as (j & jt & q & Hj & Hjt & Hq & Hlt' & Heq).
    + intros j Hj. apply Hall. by right.
    + destruct Hbad as (j & jt & q & Hj & Hjt & Hq & Hlt').
      apply elem_of_cons in Hj as [->|Hj].
      * rewrite Hit in Hjt. injection Hjt as <-. rewrite Hp in Hq.
        injection Hq as <-. lia.
      * exists j, jt, q. done.
    + exists j, jt, q. split; [by right|]. done.
Qed.

Lemma update_inventories_ok its s :
  (∀ it, it ∈ its → is_Some (products s !! CartItem.product_id it)) →
  ∃ m, update_inventories its s =
         (mkStore m (carts s) (cart_items s) (next_id s), inr tt)
     ∧ ∀ p, m !! p = take_stock (quantity_of p its) <$> products s !! p.
Proof.
  revert s. induction its as [|it its IH]; intros s Hall; simpl.
  { exists (products s). split; [by destruct s|].
    intros p. destruct (products s !! p) as [[]|]; simpl; [|done].
    unfold take_stock. simpl. by rewrite Z.sub_0_r. }
  destruct (Hall it) as [prod Hprod]; [by left|].
  unfold_op. rewrite Hprod. simpl.
  match goal with |- context [update_inventories its ?s1] =>
    destruct (IH s1) as (m & Heq & Hm) end.
  { simpl. intros jt Hjt.
    destruct (decide (CartItem.product_id it = CartItem.product_id jt)) as [<-|Hne].
    - rewrite lookup_insert_eq. eauto.
    - rewrite lookup_insert_ne by done. apply Hall. by right. }
  exists m. split; [by rewrite Heq|].
  intros p. rewrite Hm. simpl.
  destruct (decide (CartItem.product_id it = p)) as [<-|Hne].
  - rewrite lookup_insert_eq, Hprod. simpl. unfold take_stock. simpl.
    f_equal. f_equal. lia.
  - rewrite lookup_insert_ne by done. rewrite Z.add_0_l. done.
Qed.

Lemma completeCart_completed cart_id s cart :
  carts s !! cart_id = Some cart → Cart.completed cart = true →
  completeCart cart_id s = (s, inl (CartAlreadyCompleted cart_id)).
Proof.
  intros Hc Hdone. unfold completeCart. unfold_op. rewrite Hc. simpl.
  by rewrite Hdone.
Qed.

Lemma completeCart_ok cart_id s cart :
  carts s !! cart_id = Some cart → Cart.completed cart = false →
  (∀ i, i ∈ Cart.items cart → ∃ it p, cart_items s !! i = Some it
      ∧ products s !! CartItem.product_id it = Some p
      ∧ CartItem.qty it <= Product.inventory_count p) →
  ∃ m, completeCart cart_id s =
         (mkStore m
            (<[cart_id := Cart.mk (Cart.items cart) (Cart.total cart) true]> (carts s))
            (cart_items s) (next_id s),
          inr (cart_object cart_id (Cart.items cart) (Cart.total cart) true))
     ∧ ∀ p, m !! p =
         take_stock (quantity_of p (resolved (cart_items s) (Cart.items cart)))
           <$> products s !! p.
Proof.
  intros Hc Hopen Hall.
  destruct (update_inventories_ok (resolved (cart_items s) (Cart.items cart)) s)
    as (m & Hupd & Hm).
  { intros it Hit. unfold resolved in Hit.
    apply list_elem_of_omap in Hit as (i & Hi & Hit).
    destruct (Hall i Hi) as (it' & p & Hit' & Hp & _).
    rewrite Hit' in Hit. injection Hit as <-. eauto. }
  exists m. split; [|done].
  unfold completeCart. unfold_op. rewrite Hc. simpl. rewrite Hopen.
  rewrite (check_inventory_ok _ [] s Hall). simpl. by rewrite Hupd.
Qed.

Lemma completeCart_insufficient cart_id s cart :
  carts s !! cart_id = Some cart → Cart.completed cart = false →
  (∀ i, i ∈ Cart.items cart → ∃ it, cart_items s !! i = Some it
      ∧ is_Some (products s !! CartItem.product_id it)) →
  (∃ i it p, i ∈ Cart.items cart ∧ cart_items s !! i = Some it
      ∧ products s !! CartItem.product_id it = Some p
      ∧ Product.inventory_count p < CartItem.qty it) →
  ∃ i it p, i ∈ Cart.items cart ∧ cart_items s !! i = Some it
      ∧ products s !! CartItem.product_id it = Some p
      ∧ Product.inventory_count p < CartItem.qty it
      ∧ completeCart cart_id s =
          (s, inl (InsufficientInventory (CartItem.product_id it)
                     (Product.inventory_count p) (CartItem.qty it))).
Proof.
  intros Hc Hopen Hall Hbad.
  destruct (check_inventory_insufficient _ [] s Hall Hbad)
    as (i & it & p & Hi & Hit & Hp & Hlt & Heq).
  exists i, it, p. repeat split; try done.
  unfold completeCart. unfold_op. rewrite Hc. simpl. rewrite Hopen.
  by rewrite Heq.
Qed.

(** *** Steps that keep a store consistent *)

Lemma inv_empty : store_inv empty_store.
Proof. split; simpl; intros *; rewrite ?lookup_empty; try done; by intros []. Qed.

Lemma inv_set_item s i it it' :
  store_inv s → cart_items s !! i = Some it →
  CartItem.product_id it' = CartItem.product_id it →
  CartItem.cart_id it' = CartItem.cart_id it →
  0 < CartItem.qty it' →
  store_inv (mkStore (products s) (carts s) (<[i := it']> (cart_items s)) (next_id s)).
Proof.
  intros [] Hi Hp Hc Hq. split; simpl.
  - intros c cart j Hcart Hj.
    destruct (inv_resolve0 c cart j Hcart Hj) as (jt & Hjt & Hjc).
    destruct (decide (i = j)) as [->|Hne].
    + rewrite lookup_insert_eq. exists it'. split; [done|]. congruence.
    + rewrite lookup_insert_ne by done. eauto.
  - done.
  - intros j jt Hj. destruct (decide (i = j)) as [->|Hne].
    + rewrite lookup_insert_eq in Hj. injection Hj as <-. rewrite Hc. eauto.
    + rewrite lookup_insert_ne in Hj by done. eauto.
  - intros j k jt kt Hj Hk Hpp Hcc.
    destruct (decide (i = j)) as [<-|Hnj]; destruct (decide (i = k)) as [<-|Hnk];
      simplify_map_eq; try done; eapply inv_pair0; eauto; congruence.
  - intros j jt Hj. destruct (decide (i = j)) as [->|Hne].
    + rewrite lookup_insert_eq in Hj. injection Hj as <-. rewrite Hp. eauto.
    + rewrite lookup_insert_ne in Hj by done. eauto.
  - intros j jt Hj. destruct (decide (i = j)) as [->|Hne].
    + rewrite lookup_insert_eq in Hj. by injection Hj as <-.
    + rewrite lookup_insert_ne in Hj by done. eauto.
  - done.
  - done.
  - intros j Hj. destruct (decide (i = j)) as [->|Hne].
    + eauto.
    + rewrite lookup_insert_ne in Hj by done. eauto.
Qed.

Lemma inv_set_cart s c cart cart' :
  store_inv s → carts s !! c = Some cart → Cart.items cart' = Cart.items cart →
  store_inv (mkStore (products s) (<[c := cart']> (carts s)) (cart_items s) (next_id s)).
Proof.
  intros [] Hcart Hitems. split; simpl; try done.
  - intros d dcart j Hd Hj. destruct (decide (c = d)) as [->|Hne].
    + rewrite lookup_insert_eq in Hd. injection Hd as <-.
      rewrite Hitems in Hj. eauto.
    + rewrite lookup_insert_ne in Hd by done. eauto.
  - intros d dcart Hd. destruct (decide (c = d)) as [->|Hne].
    + rewrite lookup_insert_eq in Hd. injection Hd as <-. rewrite Hitems. eauto.
    + rewrite lookup_insert_ne in Hd by done. eauto.
  - intros j jt Hj. destruct (inv_owned0 j jt Hj) as (d & Hd & Hjd).
    destruct (decide (c = CartItem.cart_id jt)) as [->|Hne].
    + rewrite lookup_insert_eq. exists cart'. split; [done|].
      rewrite Hitems. congruence.
    + rewrite lookup_insert_ne by done. eauto.
  - intros d Hd. destruct (decide (c = d)) as [->|Hne].
    + eauto.
    + rewrite lookup_insert_ne in Hd by done. eauto.
Qed.

Lemma inv_new_item s c cart p q t total completed :
  store_inv s → carts s !! c = Some cart → is_Some (products s !! p) → 0 < q →
  matching_items p c (cart_items s) = [] →
  store_inv
    (mkStore (products s)
       (<[c := Cart.mk (Cart.items cart ++ [next_id s]) total completed]> (carts s))
       (<[next_id s := CartItem.mk p c q t]> (cart_items s))
       (N.succ (next_id s))).
Proof.
  intros [] Hcart Hprod Hq Hnone.
  assert (∀ d dcart j, carts s !! d = Some dcart → j ∈ Cart.items dcart →
            j ≠ next_id s) as Hold.
  { intros d dcart j Hd Hj ->.
    destruct (inv_resolve0 d dcart _ Hd Hj) as (jt & Hjt & _).
    assert (next_id s < next_id s)%N by eauto. lia. }
  assert (cart_items s !! next_id s = None) as Hfresh.
  { destruct (cart_items s !! next_id s) eqn:E; [|done].
    assert (next_id s < next_id s)%N by eauto. lia. }
  split; simpl.
  - intros d dcart j Hd Hj. destruct (decide (c = d)) as [<-|Hne].
    + rewrite lookup_insert_eq in Hd. injection Hd as <-. simpl in Hj.
      apply elem_of_app in Hj as [Hj|Hj].
      * rewrite lookup_insert_ne by (symmetry; eauto). eauto.
      * apply list_elem_of_singleton in Hj as ->.
        rewrite lookup_insert_eq. eauto.
    + rewrite lookup_insert_ne in Hd by done.
      rewrite lookup_insert_ne by (symmetry; eauto). eauto.
  - intros d dcart Hd. destruct (decide (c = d)) as [<-|Hne].
    + rewrite lookup_insert_eq in Hd. injection Hd as <-. simpl.
      apply NoDup_app. split; [eauto|]. split; [|apply NoDup_singleton].
      intros j Hj ->%list_elem_of_singleton. by eapply Hold.
    + rewrite lookup_insert_ne in Hd by done. eauto.
  - intros j jt Hj. destruct (decide (next_id s = j)) as [<-|Hne].
    + rewrite lookup_insert_eq in Hj. injection Hj as <-. simpl.
      rewrite lookup_insert_eq. eexists. split; [done|]. simpl.
      apply elem_of_app. right. by left.
    + rewrite lookup_insert_ne in Hj by done.
      destruct (inv_owned0 j jt Hj) as (dcart & Hd & Hjd).
      destruct (decide (c = CartItem.cart_id jt)) as [Heq|Hnc].
      * rewrite <- Heq in *. rewrite lookup_insert_eq. eexists. split; [done|].
        simpl. apply elem_of_app. left. congruence.
      * rewrite lookup_insert_ne by done. eauto.
  - intros j k jt kt Hj Hk Hpp Hcc.
    destruct (decide (next_id s = j)) as [<-|Hnj];
      destruct (decide (next_id s = k)) as [<-|Hnk];
      simplify_map_eq; try done.
    + exfalso. eapply matching_items_nil; eauto.
    + exfalso. eapply matching_items_nil; eauto.
    + eapply inv_pair0; eauto.
  - intros j jt Hj. destruct (decide (next_id s = j)) as [<-|Hne].
    + rewrite lookup_insert_eq in Hj. by injection Hj as <-.
    + rewrite lookup_insert_ne in Hj by done. eauto.
  - intros j jt Hj. destruct (decide (next_id s = j)) as [<-|Hne].
    + rewrite lookup_insert_eq in Hj. by injection Hj as <-.
    + rewrite lookup_insert_ne in Hj by done. eauto.
  - intros j Hj. apply inv_products_below0 in Hj. lia.
  - intros j Hj. destruct (decide (c = j)) as [<-|Hne].
    + assert (c < next_id s)%N by eauto. lia.
    + rewrite lookup_insert_ne in Hj by done. apply inv_carts_below0 in Hj. lia.
  - intros j Hj. destruct (decide (next_id s = j)) as [<-|Hne]; [lia|].
    rewrite lookup_insert_ne in Hj by done. apply inv_items_below0 in Hj. lia.
Qed.

Lemma inv_delete_item s i it cart k total completed :
  store_inv s → cart_items s !! i = Some it →
  carts s !! CartItem.cart_id it = Some cart → Cart.items cart !! k = Some i →
  store_inv
    (mkStore (products s)
       (<[CartItem.cart_id it := Cart.mk (delete k (Cart.items cart)) total completed]>
          (carts s))
       (delete i (cart_items s)) (next_id s)).
Proof.
  intros [] Hi Hcart Hk.
  assert (NoDup (Cart.items cart)) as Hnd by eauto.
  split; simpl.
  - intros d dcart j Hd Hj. destruct (decide (CartItem.cart_id it = d)) as [<-|Hne].
    + rewrite lookup_insert_eq in Hd. injection Hd as <-. simpl in Hj.
      apply (elem_of_delete_NoDup _ _ i) in Hj as [Hj Hji]; [|done..].
      rewrite lookup_delete_ne by done. eauto.
    + rewrite lookup_insert_ne in Hd by done.
      destruct (inv_resolve0 d dcart j Hd Hj) as (jt & Hjt & Hjd).
      rewrite lookup_delete_ne by congruence. eauto.
  - intros d dcart Hd. destruct (decide (CartItem.cart_id it = d)) as [<-|Hne].
    + rewrite lookup_insert_eq in Hd. injection Hd as <-. simpl.
      by apply NoDup_delete_index.
    + rewrite lookup_insert_ne in Hd by done. eauto.
  - intros j jt Hj. apply lookup_delete_Some in Hj as [Hne Hj].
    destruct (inv_owned0 j jt Hj) as (dcart & Hd & Hjd).
    destruct (decide (CartItem.cart_id it = CartItem.cart_id jt)) as [Heq|Hnc].
    + rewrite <- Heq in *. rewrite lookup_insert_eq. eexists. split; [done|].
      simpl. apply (elem_of_delete_NoDup _ _ i); [done..|].
      split; [congruence|done].
    + rewrite lookup_insert_ne by done. eauto.
  - intros j j' jt jt' Hj Hj' Hpp Hcc.
    apply lookup_delete_Some in Hj as [_ Hj].
    apply lookup_delete_Some in Hj' as [_ Hj']. eauto.
  - intros j jt Hj. apply lookup_delete_Some in Hj as [_ Hj]. eauto.
  - intros j jt Hj. apply lookup_delete_Some in Hj as [_ Hj]. eauto.
  - done.
  - intros j Hj. destruct (decide (CartItem.cart_id it = j)) as [<-|Hne].
    + eauto.
    + rewrite lookup_insert_ne in Hj by done. eauto.
  - intros j [jt Hj]. apply lookup_delete_Some in Hj as [_ Hj]. eauto.
Qed.

Lemma inv_set_products s m :
  store_inv s → (∀ p, is_Some (m !! p) ↔ is_Some (products s !! p)) →
  store_inv (mkStore m (carts s) (cart_items s) (next_id s)).
Proof.
  intros [] Hm. split; simpl; try done.
  - intros i it Hi. apply Hm. eauto.
  - intros i Hi. apply Hm in Hi. eauto.
Qed.

Lemma inv_new_cart s total completed :
  store_inv s →
  store_inv (mkStore (products s) (<[next_id s := Cart.mk [] total completed]> (carts s))
                     (cart_items s) (N.succ (next_id s))).
Proof.
  intros []. split; simpl.
  - intros d dcart j Hd Hj. destruct (decide (next_id s = d)) as [<-|Hne].
    + rewrite lookup_insert_eq in Hd. injection Hd as <-. by apply elem_of_nil in Hj.
    + rewrite lookup_insert_ne in Hd by done. eauto.
  - intros d dcart Hd. destruct (decide (next_id s = d)) as [<-|Hne].
    + rewrite lookup_insert_eq in Hd. injection Hd as <-. apply NoDup_nil_2.
    + rewrite lookup_insert_ne in Hd by done. eauto.
  - intros j jt Hj. destruct (inv_owned0 j jt Hj) as (dcart & Hd & Hjd).
    rewrite lookup_insert_ne; [eauto|].
    intros Heq. assert (CartItem.cart_id jt < next_id s)%N by eauto. lia.
  - done.
  - done.
  - done.
  - intros j Hj. apply inv_products_below0 in Hj. lia.
  - intros j Hj. destruct (decide (next_id s = j)) as [<-|Hne]; [lia|].
    rewrite lookup_insert_ne in Hj by done. apply inv_carts_below0 in Hj. lia.
  - intros j Hj. apply inv_items_below0 in Hj. lia.
Qed.

Lemma inv_skip_id s :
  store_inv s →
  store_inv (mkStore (products s) (carts s) (cart_items s) (N.succ (next_id s))).
Proof.
  intros []. split; simpl; try done.
  - intros j Hj. apply inv_products_below0 in Hj. lia.
  - intros j Hj. apply inv_carts_below0 in Hj. lia.
  - intros j Hj. apply inv_items_below0 in Hj. lia.
Qed.

Lemma inv_new_product s product :
  store_inv s →
  store_inv (mkStore (<[next_id s := product]> (products s)) (carts s)
                     (cart_items s) (N.succ (next_id s))).
Proof.
  intros []. split; simpl; try done.
  - intros j jt Hj. destruct (decide (next_id s = CartItem.product_id jt)) as [<-|Hne].
    + rewrite lookup_insert_eq. eauto.
    + rewrite lookup_insert_ne by done. eauto.
  - intros j Hj. destruct (decide (next_id s = j)) as [<-|Hne]; [lia|].
    rewrite lookup_insert_ne in Hj by done. apply inv_products_below0 in Hj. lia.
  - intros j Hj. apply inv_carts_below0 in Hj. lia.
  - intros j Hj. apply inv_items_below0 in Hj. lia.
Qed.

(** *** What consistency gives the resolvers *)

Lemma inv_populated s c cart :
  store_inv s → carts s !! c = Some cart →
  (populated (cart_items s) (Cart.items cart)).*1 = Cart.items cart.
Proof.
  intros Hinv Hcart. apply populated_fst_resolved. intros i Hi.
  destruct (inv_resolve s Hinv c cart i Hcart Hi) as (it & Hit & _). eauto.
Qed.

Lemma inv_find_index s i it cart :
  store_inv s → cart_items s !! i = Some it →
  carts s !! CartItem.cart_id it = Some cart →
  ∃ k, Cart.items cart !! k = Some i
     ∧ find_index i (populated (cart_items s) (Cart.items cart)) 0 (-1) = Z.of_nat k.
Proof.
  intros Hinv Hi Hcart.
  destruct (inv_owned s Hinv i it Hi) as (cart' & Hcart' & Hin).
  rewrite Hcart in Hcart'. injection Hcart' as <-.
  apply list_elem_of_lookup_1 in Hin as [k Hk]. exists k. split; [done|].
  rewrite (find_index_present i _ 0 (-1) k); [lia| |].
  - erewrite inv_populated by done. by eapply inv_nodup.
  - by erewrite inv_populated.
Qed.

Lemma inv_items_checkable s c cart :
  store_inv s → carts s !! c = Some cart →
  ∀ i, i ∈ Cart.items cart →
    ∃ it, cart_items s !! i = Some it
        ∧ is_Some (products s !! CartItem.product_id it).
Proof.
  intros Hinv Hcart i Hi.
  destruct (inv_resolve s Hinv c cart i Hcart Hi) as (it & Hit & _).
  exists it. split; [done|]. by eapply inv_product.
Qed.

Lemma stock_cases s (ids : list N) :
  (∀ i, i ∈ ids → ∃ it, cart_items s !! i = Some it
      ∧ is_Some (products s !! CartItem.product_id it)) →
  (∀ i, i ∈ ids → ∃ it p, cart_items s !! i = Some it
      ∧ products s !! CartItem.product_id it = Some p
      ∧ CartItem.qty it <= Product.inventory_count p)
  ∨ (∃ i it p, i ∈ ids ∧ cart_items s !! i = Some it
      ∧ products s !! CartItem.product_id it = Some p
      ∧ Product.inventory_count p < CartItem.qty it).
Proof.
  induction ids as [|i ids IH]; intros Hall.
  { left. intros i Hi. by apply elem_of_nil in Hi. }
  destruct (Hall i) as (it & Hit & [p Hp]); [by left|].
  destruct (decide (Product.inventory_count p < CartItem.qty it)) as [Hlt|Hge].
  { right. exists i, it, p. split; [by left|done]. }
  destruct IH as [Hok|(j & jt & q & Hj & Hrest)].
  - intros j Hj. apply Hall. by right.
  - left. intros j [->|Hj]%elem_of_cons; [|by apply Hok].
    exists it, p. repeat split; try done. lia.
  - right. exists j, jt, q. split; [by right|done].
Qed.

(** *** Every resolver keeps the store consistent *)

Lemma addProductToCart_inv product_id cart_id qty s :
  store_inv s → store_inv (addProductToCart product_id cart_id qty s).1.
Proof.
  intros Hinv. rewrite addProductToCart_eq. case_decide as Hq; [done|].
  destruct (carts s !! cart_id) as [cart|] eqn:Hcart; [|done].
  destruct (products s !! product_id) as [product|] eqn:Hprod; [|done].
  unfold add_result. rewrite (inv_populated s cart_id cart) by done.
  destruct (matching_items _ _ _) as [|[i it] l] eqn:Hfind; simpl.
  - apply inv_new_item; eauto. lia.
  - apply matching_items_head in Hfind as (Hi & Hp & Hc).
    eapply (inv_set_cart (mkStore _ _ _ _)); [|done|done].
    eapply inv_set_item; eauto. simpl.
    assert (0 < CartItem.qty it) by (by eapply inv_qty). lia.
Qed.

Lemma removeProductFromCart_inv product_id cart_id qty s :
  store_inv s → store_inv (removeProductFromCart product_id cart_id qty s).1.
Proof.
  intros Hinv. rewrite removeProductFromCart_eq. case_decide as Hq; [done|].
  destruct (carts s !! cart_id) as [cart|] eqn:Hcart; [|done].
  destruct (matching_items _ _ _) as [|[i it] l] eqn:Hfind; [done|].
  apply matching_items_head in Hfind as (Hi & Hp & Hc).
  destruct (products s !! CartItem.product_id it) as [product|] eqn:Hprod; [|done].
  rewrite <- Hc in Hcart |- *.
  destruct (inv_find_index s i it cart Hinv Hi Hcart) as (k & Hk & Hidx).
  assert ((populated (cart_items s) (Cart.items cart)).*1 = Cart.items cart)
    as Hpop by (by eapply inv_populated).
  unfold remove_result. rewrite Hidx. case_decide as Hle; simpl.
  - rewrite splice1_in_range, fmap_fst_delete, Hpop.
    + by apply inv_delete_item.
    + rewrite <- (length_fmap fst), Hpop. by eapply lookup_lt_Some.
  - rewrite set_index_in_range, fmap_fst_insert_same, Hpop by (by rewrite Hpop).
    eapply (inv_set_cart (mkStore _ _ _ _)); [|done|done].
    eapply inv_set_item; eauto. simpl. lia.
Qed.

Lemma completeCart_inv cart_id s :
  store_inv s → store_inv (completeCart cart_id s).1.
Proof.
  intros Hinv.
  destruct (carts s !! cart_id) as [cart|] eqn:Hcart.
  2: { unfold completeCart. unfold_op. by rewrite Hcart. }
  destruct (Cart.completed cart) eqn:Hopen.
  { by erewrite completeCart_completed. }
  destruct (stock_cases s (Cart.items cart)) as [Hok|Hbad].
  { by eapply inv_items_checkable. }
  - destruct (completeCart_ok cart_id s cart Hcart Hopen Hok) as (m & -> & Hm).
    simpl. eapply (inv_set_cart (mkStore _ _ _ _)); [|done|done].
    apply inv_set_products; [done|]. intros p. rewrite Hm.
    by rewrite fmap_is_Some.
  - destruct (completeCart_insufficient cart_id s cart Hcart Hopen) as
      (i & it & p & _ & _ & _ & _ & ->); try done.
    by eapply inv_items_checkable.
Qed.

Lemma exec_inv r s : store_inv s → store_inv (exec r s).
Proof.
  intros Hinv. unfold exec, root, bind. destruct r.
  - rewrite getCart_eq. by destruct (carts s !! cart_id).
  - unfold getProductById. unfold_op. by destruct (products s !! product_id).
  - done.
  - done.
  - rewrite createCart_eq. simpl. by apply inv_new_cart.
  - rewrite createProduct_eq. case_decide; simpl;
      [by apply inv_skip_id|by apply inv_new_product].
  - pose proof (addProductToCart_inv product_id cart_id qty s Hinv) as H.
    by destruct (addProductToCart _ _ _ s) as [s' []].
  - pose proof (removeProductFromCart_inv product_id cart_id qty s Hinv) as H.
    by destruct (removeProductFromCart _ _ _ s) as [s' []].
  - pose proof (completeCart_inv cart_id s Hinv) as H.
    by destruct (completeCart _ s) as [s' []].
Qed.

Lemma exec_all_inv rs s : store_inv s → store_inv (exec_all rs s).
Proof.
  revert s. induction rs as [|r rs IH]; intros s Hinv; [done|].
  simpl. apply IH. by apply exec_inv.
Qed.

Lemma quantity_of_cons p it its :
  quantity_of p (it :: its) =
  (if decide (CartItem.product_id it = p) then CartItem.qty it else 0)
  + quantity_of p its.
Proof. done. Qed.

Lemma resolved_cons (m : gmap N CartItem.t) j (ids : list N) :
  resolved m (j :: ids) =
  match m !! j with
  | Some it => it :: resolved m ids
  | None => resolved m ids
  end.
Proof. unfold resolved. simpl. by destruct (m !! j). Qed.

Lemma quantity_of_unreferenced (m : gmap N CartItem.t) (ids : list N) p :
  (∀ j jt, j ∈ ids → m !! j = Some jt → CartItem.product_id jt ≠ p) →
  quantity_of p (resolved m ids) = 0.
Proof.
  induction ids as [|j ids IH]; intros Hnone; [done|].
  assert (quantity_of p (resolved m ids) = 0) as Hrest.
  { apply IH. intros k kt Hk. apply Hnone. by right. }
  rewrite resolved_cons. destruct (m !! j) as [jt|] eqn:Hj; [|done].
  rewrite quantity_of_cons, Hrest.
  rewrite decide_False; [done|]. eapply Hnone; [by left|done].
Qed.

Lemma quantity_of_unique (m : gmap N CartItem.t) (ids : list N) i it :
  NoDup ids → i ∈ ids → m !! i = Some it →
  (∀ j jt, j ∈ ids → m !! j = Some jt →
     CartItem.product_id jt = CartItem.product_id it → j = i) →
  quantity_of (CartItem.product_id it) (resolved m ids) = CartItem.qty it.
Proof.
  induction ids as [|j ids IH]; intros Hnd Hi Hit Huniq.
  { by apply elem_of_nil in Hi. }
  apply NoDup_cons in Hnd as [Hj Hnd]. rewrite resolved_cons.
  destruct (decide (j = i)) as [->|Hne].
  - rewrite Hit, quantity_of_cons. rewrite decide_True by done.
    rewrite quantity_of_unreferenced; [lia|].
    intros k kt Hk Hkt Heq. assert (k = i) as -> by (eapply Huniq; eauto; by right).
    done.
  - apply elem_of_cons in Hi as [->|Hi]; [done|].
    assert (quantity_of (CartItem.product_id it) (resolved m ids) = CartItem.qty it)
      as Hrest.
    { apply IH; try done. intros k kt Hk. apply Huniq. by right. }
    destruct (m !! j) as [jt|] eqn:Hjt; [|done].
    rewrite quantity_of_cons, Hrest. rewrite decide_False; [done|].
    intros Heq. apply Hne. eapply Huniq; eauto. by left.
Qed.

Lemma quantity_of_cases (m : gmap N CartItem.t) (ids : list N) p :
  quantity_of p (resolved m ids) = 0
  ∨ ∃ i it, i ∈ ids ∧ m !! i = Some it ∧ CartItem.product_id it = p.
Proof.
  induction ids as [|j ids IH]; [by left|].
  rewrite resolved_cons. destruct (m !! j) as [jt|] eqn:Hjt.
  - destruct (decide (CartItem.product_id jt = p)) as [Heq|Hne].
    + right. exists j, jt. split; [by left|done].
    + destruct IH as [Hz|(i & it & Hi & Hrest)].
      * left. rewrite quantity_of_cons, Hz. by rewrite decide_False.
      * right. exists i, it. split; [by right|done].
  - destruct IH as [Hz|(i & it & Hi & Hrest)].
    + by left.
    + right. exists i, it. split; [by right|done].
Qed.

(** Within one cart of a consistent store a product has one line item. *)
Lemma inv_cart_quantity s c cart i it :
  store_inv s → carts s !! c = Some cart → i ∈ Cart.items cart →
  cart_items s !! i = Some it →
  quantity_of (CartItem.product_id it) (resolved (cart_items s) (Cart.items cart))
  = CartItem.qty it.
Proof.
  intros Hinv Hcart Hi Hit. apply quantity_of_unique with (i := i); try done.
  - by eapply inv_nodup.
  - intros j jt Hj Hjt Heq.
    destruct (inv_resolve s Hinv c cart j Hcart Hj) as (jt' & Hjt' & Hjc).
    destruct (inv_resolve s Hinv c cart i Hcart Hi) as (it' & Hit' & Hic).
    rewrite Hjt in Hjt'. rewrite Hit in Hit'. simplify_eq.
    by eapply (inv_pair s Hinv).
Qed.

(** *** addProductToCart and removeProductFromCart on a consistent store *)

Lemma add_existing s product_id cart_id qty cart product i it :
  store_inv s → 0 < qty →
  carts s !! cart_id = Some cart → products s !! product_id = Some product →
  cart_items s !! i = Some it →
  CartItem.product_id it = product_id → CartItem.cart_id it = cart_id →
  addProductToCart product_id cart_id qty s =
    (mkStore (products s)
       (<[cart_id := Cart.mk (Cart.items cart)
                       (Cart.total cart + js_mul (Product.price product) qty)
                       (Cart.completed cart)]> (carts s))
       (<[i := CartItem.mk product_id cart_id (CartItem.qty it + qty)
                 (CartItem.total it + js_mul (Product.price product) qty)]> (cart_items s))
       (next_id s),
     inr (CartObject.mk cart_id (Cart.items cart)
            (Cart.total cart + js_mul (Product.price product) qty) (Cart.completed cart))).
Proof.
  intros Hinv Hq Hcart Hprod Hi Hp Hc.
  rewrite addProductToCart_eq, decide_False, Hcart, Hprod by lia.
  unfold add_result. rewrite (inv_populated s cart_id cart) by done.
  destruct (matching_items_unique product_id cart_id (cart_items s) i it)
    as [l ->]; try done; [by apply inv_pair|].
  by rewrite Hp, Hc.
Qed.

Lemma add_new s product_id cart_id qty cart product :
  store_inv s → 0 < qty →
  carts s !! cart_id = Some cart → products s !! product_id = Some product →
  matching_items product_id cart_id (cart_items s) = [] →
  addProductToCart product_id cart_id qty s =
    (mkStore (products s)
       (<[cart_id := Cart.mk (Cart.items cart ++ [next_id s])
                       (Cart.total cart + js_mul (Product.price product) qty)
                       (Cart.completed cart)]> (carts s))
       (<[next_id s := CartItem.mk product_id cart_id qty
                         (js_mul (Product.price product) qty)]> (cart_items s))
       (N.succ (next_id s)),
     inr (CartObject.mk cart_id (Cart.items cart ++ [next_id s])
            (Cart.total cart + js_mul (Product.price product) qty) (Cart.completed cart))).
Proof.
  intros Hinv Hq Hcart Hprod Hnone.
  rewrite addProductToCart_eq, decide_False, Hcart, Hprod by lia.
  unfold add_result. rewrite (inv_populated s cart_id cart) by done.
  by rewrite Hnone.
Qed.

Lemma remove_some s product_id cart_id qty cart product i it :
  store_inv s → 0 < qty → qty < CartItem.qty it →
  carts s !! cart_id = Some cart → products s !! product_id = Some product →
  cart_items s !! i = Some it →
  CartItem.product_id it = product_id → CartItem.cart_id it = cart_id →
  removeProductFromCart product_id cart_id qty s =
    (mkStore (products s)
       (<[cart_id := Cart.mk (Cart.items cart)
                       (Cart.total cart - js_mul (Product.price product) qty)
                       (Cart.completed cart)]> (carts s))
       (<[i := CartItem.mk product_id cart_id (CartItem.qty it - qty)
                 (CartItem.total it - js_mul (Product.price product) qty)]> (cart_items s))
       (next_id s),
     inr (CartObject.mk cart_id (Cart.items cart)
            (Cart.total cart - js_mul (Product.price product) qty) (Cart.completed cart))).
Proof.
  intros Hinv Hq Hlt Hcart Hprod Hi Hp Hc.
  rewrite removeProductFromCart_eq, decide_False, Hcart by lia.
  destruct (matching_items_unique product_id cart_id (cart_items s) i it)
    as [l ->]; try done; [by apply inv_pair|].
  rewrite Hp, Hprod. unfold remove_result. rewrite decide_False by lia.
  rewrite <- Hc in Hcart.
  destruct (inv_find_index s i it cart Hinv Hi Hcart) as (k & Hk & ->).
  rewrite set_index_in_range, fmap_fst_insert_same;
    rewrite (inv_populated s (CartItem.cart_id it) cart) by done; [|done].
  rewrite Hp, Hc, (js_mul_comm qty). done.
Qed.

Lemma remove_all s product_id cart_id qty cart product i it :
  store_inv s → CartItem.qty it <= qty →
  carts s !! cart_id = Some cart → products s !! product_id = Some product →
  cart_items s !! i = Some it →
  CartItem.product_id it = product_id → CartItem.cart_id it = cart_id →
  ∃ k, Cart.items cart !! k = Some i ∧
  removeProductFromCart product_id cart_id qty s =
    (mkStore (products s)
       (<[cart_id := Cart.mk (delete k (Cart.items cart))
                       (Cart.total cart - js_mul (Product.price product) (CartItem.qty it))
                       (Cart.completed cart)]> (carts s))
       (delete i (cart_items s))
       (next_id s),
     inr (CartObject.mk cart_id (delete k (Cart.items cart))
            (Cart.total cart - js_mul (Product.price product) (CartItem.qty it))
            (Cart.completed cart))).
Proof.
  intros Hinv Hle Hcart Hprod Hi Hp Hc.
  assert (0 < CartItem.qty it) by (by eapply inv_qty).
  rewrite removeProductFromCart_eq, decide_False, Hcart by lia.
  destruct (matching_items_unique product_id cart_id (cart_items s) i it)
    as [l ->]; try done; [by apply inv_pair|].
  rewrite Hp, Hprod. unfold remove_result. rewrite decide_True by lia.
  rewrite <- Hc in Hcart.
  destruct (inv_find_index s i it cart Hinv Hi Hcart) as (k & Hk & ->).
  exists k. split; [done|].
  assert ((populated (cart_items s) (Cart.items cart)).*1 = Cart.items cart)
    as Hpop by (by eapply inv_populated).
  rewrite splice1_in_range, fmap_fst_delete, Hpop.
  - replace (qty + (CartItem.qty it - qty)) with (CartItem.qty it) by lia.
    by rewrite (js_mul_comm (CartItem.qty it)).
  - rewrite <- (length_fmap fst), Hpop. by eapply lookup_lt_Some.
Qed.

(** *** Totals *)

Lemma sum_over_app f (l l' : list N) :
  sum_over f (l ++ l') = sum_over f l + sum_over f l'.
Proof.
  unfold sum_over. induction l as [|i l IH]; simpl; [done|]. rewrite IH. lia.
Qed.

Lemma sum_over_ext f g (l : list N) :
  (∀ i, i ∈ l → f i = g i) → sum_over f l = sum_over g l.
Proof.
  unfold sum_over. induction l as [|i l IH]; intros Hfg; simpl; [done|].
  rewrite IH, (Hfg i); [done|by left|]. intros j Hj. apply Hfg. by right.
Qed.

Lemma sum_over_bump f g (l : list N) i d :
  NoDup l → i ∈ l → (∀ j, j ∈ l → j ≠ i → g j = f j) → g i = f i + d →
  sum_over g l = sum_over f l + d.
Proof.
  induction l as [|j l IH]; intros Hnd Hi Hother Hbump.
  { by apply elem_of_nil in Hi. }
  apply NoDup_cons in Hnd as [Hj Hnd].
  change (g j + sum_over g l = f j + sum_over f l + d).
  destruct (decide (j = i)) as [->|Hne].
  - rewrite Hbump, (sum_over_ext g f l); [lia|].
    intros k Hk. apply Hother; [by right|]. by intros ->.
  - apply elem_of_cons in Hi as [->|Hi]; [done|].
    rewrite (Hother j), IH; try done; [lia| |by left].
    intros k Hk. apply Hother. by right.
Qed.

Lemma addProductToCart_keeps_cart product_id cart_id qty s c :
  is_Some (carts s !! c) →
  is_Some (carts (addProductToCart product_id cart_id qty s).1 !! c).
Proof.
  intros Hc. rewrite addProductToCart_eq. case_decide; [done|].
  destruct (carts s !! cart_id) as [cart|] eqn:Hcart; [|done].
  destruct (products s !! product_id) as [product|]; [|done].
  unfold add_result. destruct (matching_items _ _ _) as [|[i it] l]; simpl;
    (destruct (decide (cart_id = c)) as [->|Hne];
      [rewrite lookup_insert_eq; eauto|by rewrite lookup_insert_ne]).
Qed.

Lemma addProductToCart_totals product_id cart_id qty s :
  store_inv s → cart_totals s cart_id →
  cart_totals (addProductToCart product_id cart_id qty s).1 cart_id.
Proof.
  intros Hinv Htot.
  destruct (decide (qty <= 0)) as [Hq|Hq].
  { by rewrite addProductToCart_eq, decide_True. }
  destruct (carts s !! cart_id) as [cart|] eqn:Hcart.
  2: { by rewrite addProductToCart_eq, decide_False, Hcart. }
  destruct (products s !! product_id) as [product|] eqn:Hprod.
  2: { by rewrite addProductToCart_eq, decide_False, Hcart, Hprod. }
  destruct (Htot cart Hcart) as [Hitems Hsum].
  assert (0 < qty) as Hq' by lia.
  destruct (matching_items product_id cart_id (cart_items s))
    as [|[i it] l] eqn:Hfind.
  - assert (cart_items s !! next_id s = None) as Hfresh.
    { destruct (cart_items s !! next_id s) eqn:E; [|done].
      assert (next_id s < next_id s)%N by (eapply inv_items_below; eauto). lia. }
    assert (∀ j, j ∈ Cart.items cart → next_id s ≠ j) as Hold.
    { intros j Hj <-.
      destruct (inv_resolve s Hinv cart_id cart _ Hcart Hj) as (jt & Hjt & _).
      congruence. }
    rewrite (add_new s product_id cart_id qty cart product) by done.
    intros cart'. simpl. rewrite lookup_insert_eq. intros [= <-]. simpl.
    split.
    + intros j [Hj| ->%list_elem_of_singleton]%elem_of_app.
      * unfold item_small, item_total, item_value. simpl.
        rewrite lookup_insert_ne by auto. apply (Hitems j Hj).
      * unfold item_small, item_total, item_value. simpl.
        rewrite lookup_insert_eq. simpl. rewrite Hprod.
        intros Hsmall. by apply js_mul_exact.
    + rewrite sum_over_app, (sum_over_ext _ (item_total s) (Cart.items cart)).
      * unfold sum_over at 2. simpl. unfold item_total at 2. simpl.
        rewrite lookup_insert_eq. simpl. lia.
      * intros j Hj. unfold item_total. simpl.
        by rewrite lookup_insert_ne by auto.
  - apply matching_items_head in Hfind as (Hi & Hp & Hc).
    rewrite (add_existing s product_id cart_id qty cart product i it) by done.
    destruct (inv_owned s Hinv i it Hi) as (cart' & Hcart' & Hin).
    rewrite Hc, Hcart in Hcart'. injection Hcart' as <-.
    pose proof (Hitems i Hin) as Hit. unfold item_small, item_total, item_value in Hit.
    rewrite Hi, Hp, Hprod in Hit. simpl in Hit.
    pose proof (inv_qty s Hinv i it Hi) as Hpos.
    intros cart'. simpl. rewrite lookup_insert_eq. intros [= <-]. simpl.
    split.
    + intros j Hj. unfold item_small, item_total, item_value. simpl.
      destruct (decide (i = j)) as [<-|Hne].
      * rewrite lookup_insert_eq. simpl. rewrite Hprod. intros Hsmall.
        apply small_parts in Hsmall as [Hold Hnew]; [|done..].
        rewrite (Hit Hold), (js_mul_exact _ _ Hnew). lia.
      * rewrite lookup_insert_ne by done. apply (Hitems j Hj).
    + rewrite Hsum. symmetry. apply sum_over_bump with (i := i); try done.
      * by eapply inv_nodup.
      * intros j Hj Hne. unfold item_total. simpl.
        by rewrite lookup_insert_ne by done.
      * unfold item_total. simpl. by rewrite lookup_insert_eq, Hi.
Qed.

Lemma add_all_totals cart_id adds s s' :
  store_inv s → cart_totals s cart_id → is_Some (carts s !! cart_id) →
  add_all cart_id adds s = Some s' →
  store_inv s' ∧ cart_totals s' cart_id ∧ is_Some (carts s' !! cart_id).
Proof.
  revert s. induction adds as [|[p q] adds IH]; intros s Hinv Htot Hcart Hrun.
  { simpl in Hrun. by injection Hrun as <-. }
  simpl in Hrun.
  pose proof (addProductToCart_inv p cart_id q s Hinv) as Hinv1.
  pose proof (addProductToCart_totals p cart_id q s Hinv Htot) as Htot1.
  pose proof (addProductToCart_keeps_cart p cart_id q s cart_id Hcart) as Hcart1.
  destruct (addProductToCart p cart_id q s) as [s1 [e|r]]; [done|].
  by apply (IH s1).
Qed.

(** *** One line item per (cart, product) pair *)







(** ** Properties of the cart engine *)

(** C10. CompleteCart on an open cart with an empty item set succeeds: both
    loops are vacuous, so no product's inventory_count changes (the products
    collection, like the line items, is the one before), the cart is stored
    with completed = true, and the returned record carries the empty item
    list and the cart's existing total. *)
Theorem completeCart_empty_cart cart_id s cart :
  carts s !! cart_id = Some cart →
  Cart.completed cart = false →
  Cart.items cart = [] →
  completeCart cart_id s =
    (mkStore (products s)
             (<[cart_id := Cart.mk [] (Cart.total cart) true]> (carts s))
             (cart_items s) (next_id s),
     inr (CartObject.mk cart_id [] (Cart.total cart) true)).
Proof.
  intros Hcart Hopen Hitems. unfold completeCart. unfold_op.
  rewrite Hcart. simpl. rewrite Hopen, Hitems. done.
Qed.

(** Completing the empty cart of [shop]. *)
Lemma completeCart_empty_cart_witness :
  completeCart 2 shop =
    (mkStore (products shop) (<[2%N := Cart.mk [] 0 true]> (carts shop))
             (cart_items shop) (next_id shop),
     inr (CartObject.mk 2 [] 0 true)).
Proof.
  apply (completeCart_empty_cart 2 shop (Cart.mk [] 0 false)); reflexivity.
Defined.

(** C1. CompleteCart on an open cart of a consistent store in which some
    live line item asks for more than its product's inventory_count fails
    with InsufficientInventory, reporting a line item of the cart that
    exceeds the stock, and the store it leaves is the store it found: the
    first loop validates every line item before the second loop applies any
    decrement, so no inventory_count is mutated. *)
Theorem completeCart_insufficient_inventory cart_id s cart i it p :
  store_inv s →
  carts s !! cart_id = Some cart →
  Cart.completed cart = false →
  i ∈ Cart.items cart →
  cart_items s !! i = Some it →
  products s !! CartItem.product_id it = Some p →
  Product.inventory_count p < CartItem.qty it →
  ∃ j jt q,
    j ∈ Cart.items cart ∧ cart_items s !! j = Some jt
    ∧ products s !! CartItem.product_id jt = Some q
    ∧ Product.inventory_count q < CartItem.qty jt
    ∧ completeCart cart_id s =
        (s, inl (InsufficientInventory (CartItem.product_id jt)
                   (Product.inventory_count q) (CartItem.qty jt))).
Proof.
  intros Hinv Hcart Hopen Hi Hit Hp Hlt.
  apply completeCart_insufficient; try done.
  - by eapply inv_items_checkable.
  - exists i, it, p. done.
Qed.

(** The cart of [shop_oversubscribed] asks for 6 of 5. *)
Lemma completeCart_insufficient_inventory_witness :
  ∃ j jt q,
    j ∈ [3%N] ∧ cart_items shop_oversubscribed !! j = Some jt
    ∧ products shop_oversubscribed !! CartItem.product_id jt = Some q
    ∧ Product.inventory_count q < CartItem.qty jt
    ∧ completeCart 2 shop_oversubscribed =
        (shop_oversubscribed,
         inl (InsufficientInventory (CartItem.product_id jt)
                (Product.inventory_count q) (CartItem.qty jt))).
Proof.
  apply (completeCart_insufficient_inventory 2 shop_oversubscribed
           (Cart.mk [3%N] 60 false) 3%N (CartItem.mk 0 2 6 60)
           (Product.mk "P" 10 5)).
  - apply exec_all_inv, exec_all_inv, inv_empty.
  - reflexivity.
  - reflexivity.
  - by left.
  - reflexivity.
  - reflexivity.
  - simpl. lia.
Defined.

(** C6, as stated, fails in its last part: createProduct accepts a
    negative inventory_count, completeCart does not touch a product its cart
    does not hold, and so a successful completeCart can leave a product with
    a negative count.  In [shop_negative] product 0 has count -4 and the
    empty cart 1 completes. *)
Lemma completeCart_leaves_negative_count :
  ¬ (∀ cart_id s cart,
       store_inv s →
       carts s !! cart_id = Some cart →
       Cart.completed cart = false →
       (∀ i it p, i ∈ Cart.items cart → cart_items s !! i = Some it →
          products s !! CartItem.product_id it = Some p →
          CartItem.qty it <= Product.inventory_count p) →
       ∃ s' r,
         completeCart cart_id s = (s', inr r)
         ∧ ∀ p prod, products s' !! p = Some prod →
             0 <= Product.inventory_count prod).
Proof.
  intros Hclaim.
  destruct (Hclaim 1%N shop_negative (Cart.mk [] 0 false))
    as (s' & r & Hrun & Hnonneg).
  - apply exec_all_inv, inv_empty.
  - reflexivity.
  - reflexivity.
  - intros i it p Hi. by apply elem_of_nil in Hi.
  - assert (s' = (completeCart 1 shop_negative).1) as -> by (by rewrite Hrun).
    specialize (Hnonneg 0%N (Product.mk "R" 3 (-4)) eq_refl).
    simpl in Hnonneg. lia.
Qed.

(** C6, amended. CompleteCart on an open cart of a consistent store whose
    line items all pass the inventory check succeeds: the product of every
    line item has its inventory_count decremented by exactly that line
    item's qty and is not negative afterwards, the cart is stored and
    returned with completed = true, and every product the cart does not
    reference keeps its inventory_count, negative or not. *)
Theorem completeCart_settles cart_id s cart :
  store_inv s →
  carts s !! cart_id = Some cart →
  Cart.completed cart = false →
  (∀ i it p, i ∈ Cart.items cart → cart_items s !! i = Some it →
     products s !! CartItem.product_id it = Some p →
     CartItem.qty it <= Product.inventory_count p) →
  ∃ s',
    completeCart cart_id s =
      (s', inr (CartObject.mk cart_id (Cart.items cart) (Cart.total cart) true))
    ∧ carts s' !! cart_id = Some (Cart.mk (Cart.items cart) (Cart.total cart) true)
    ∧ (∀ i it p, i ∈ Cart.items cart → cart_items s !! i = Some it →
         products s !! CartItem.product_id it = Some p →
         products s' !! CartItem.product_id it =
           Some (Product.mk (Product.title p) (Product.price p)
                            (Product.inventory_count p - CartItem.qty it))
         ∧ 0 <= Product.inventory_count p - CartItem.qty it)
    ∧ (∀ p, (∀ i it, i ∈ Cart.items cart → cart_items s !! i = Some it →
               CartItem.product_id it ≠ p) →
         products s' !! p = products s !! p).
Proof.
  intros Hinv Hcart Hopen Hpass.
  assert (∀ i, i ∈ Cart.items cart → ∃ it p, cart_items s !! i = Some it
            ∧ products s !! CartItem.product_id it = Some p
            ∧ CartItem.qty it <= Product.inventory_count p) as Hok.
  { intros i Hi.
    destruct (inv_items_checkable s cart_id cart Hinv Hcart i Hi)
      as (it & Hit & [p Hp]).
    exists it, p. eauto. }
  destruct (completeCart_ok cart_id s cart Hcart Hopen Hok) as (m & Heq & Hm).
  eexists. split; [exact Heq|]. simpl. split; [by rewrite lookup_insert_eq|].
  split.
  - intros i it p Hi Hit Hp. split; [|by specialize (Hpass i it p Hi Hit Hp); lia].
    rewrite Hm, Hp. simpl. unfold take_stock.
    by rewrite (inv_cart_quantity s cart_id cart i it).
  - intros p Hp. rewrite Hm, quantity_of_unreferenced by done.
    destruct (products s !! p) as [[]|]; simpl; [|done].
    unfold take_stock. simpl. by rewrite Z.sub_0_r.
Qed.

(** Completing the cart of [shop_filled]: 3 of 5 and 2 of 2. *)
Lemma completeCart_settles_witness :
  ∃ s',
    completeCart 2 shop_filled = (s', inr (CartObject.mk 2 [3%N; 4%N] 44 true))
    ∧ carts s' !! 2%N = Some (Cart.mk [3%N; 4%N] 44 true)
    ∧ (∀ i it p, i ∈ [3%N; 4%N] → cart_items shop_filled !! i = Some it →
         products shop_filled !! CartItem.product_id it = Some p →
         products s' !! CartItem.product_id it =
           Some (Product.mk (Product.title p) (Product.price p)
                            (Product.inventory_count p - CartItem.qty it))
         ∧ 0 <= Product.inventory_count p - CartItem.qty it)
    ∧ (∀ p, (∀ i it, i ∈ [3%N; 4%N] → cart_items shop_filled !! i = Some it →
               CartItem.product_id it ≠ p) →
         products s' !! p = products shop_filled !! p).
Proof.
  apply (completeCart_settles 2 shop_filled (Cart.mk [3%N; 4%N] 44 false)).
  - apply exec_all_inv, exec_all_inv, inv_empty.
  - reflexivity.
  - reflexivity.
  - intros i it p Hi Hit Hp. simpl in Hi.
    apply elem_of_cons in Hi as [->|Hi];
      [|apply elem_of_cons in Hi as [->|Hi]; [|by apply elem_of_nil in Hi]].
    + vm_compute in Hit. injection Hit as <-. vm_compute in Hp.
      injection Hp as <-. simpl. lia.
    + vm_compute in Hit. injection Hit as <-. vm_compute in Hp.
      injection Hp as <-. simpl. lia.
Defined.






(** C4, as stated, fails: the cart's total is the sum of the amounts
    the code computed, each add's price * qty rounded to binary64, and that
    is not always the sum of price * qty.  One add of 94906267 units of the
    product priced 94906267 to a fresh cart leaves the total
    9007199515875288, while price * qty is 9007199515875289. *)
Lemma add_total_is_rounded :
  ¬ (∀ s adds s',
       store_inv s →
       add_all (next_id s) adds (createCart s).1 = Some s' →
       ∃ cart,
         carts s' !! next_id s = Some cart
         ∧ Cart.total cart = sum_over (item_value s') (Cart.items cart)
         ∧ Cart.total cart = sum_over (item_total s') (Cart.items cart)
         ∧ (∀ i, i ∈ Cart.items cart ↔
              ∃ it, cart_items s' !! i = Some it ∧ CartItem.cart_id it = next_id s)).
Proof.
  intros Hclaim.
  destruct (Hclaim (exec_all [CreateProduct "B" 94906267 1] empty_store)
              [(0%N, 94906267)] shop_big) as (cart & Hcart & Hvalue & _).
  - apply exec_all_inv, inv_empty.
  - reflexivity.
  - assert (carts shop_big !! 1%N = Some (Cart.mk [2%N] 9007199515875288 false))
      as Hbig by reflexivity.
    change (carts shop_big !! 1%N = Some cart) in Hcart.
    rewrite Hbig in Hcart. injection Hcart as <-.
    vm_compute in Hvalue. discriminate Hvalue.
Qed.

(** C4, amended. Starting from a cart freshly created in a consistent
    store, after every sequence of successful AddItem operations on that
    cart, the cart's total equals the sum of the line items' own total
    fields; the total field of a line item whose price * qty stays below
    2^53 in absolute value equals price * qty, so when that holds of every
    line item of the cart the cart's total equals the sum of price * qty
    over its live line items; the live line items of the cart are exactly
    the entries of its item array. *)
Theorem add_sequence_total s adds s' :
  store_inv s →
  add_all (next_id s) adds (createCart s).1 = Some s' →
  ∃ cart,
    carts s' !! next_id s = Some cart
    ∧ Cart.total cart = sum_over (item_total s') (Cart.items cart)
    ∧ (∀ i, i ∈ Cart.items cart → item_small s' i →
         item_total s' i = item_value s' i)
    ∧ ((∀ i, i ∈ Cart.items cart → item_small s' i) →
         Cart.total cart = sum_over (item_value s') (Cart.items cart))
    ∧ (∀ i, i ∈ Cart.items cart ↔
         ∃ it, cart_items s' !! i = Some it ∧ CartItem.cart_id it = next_id s).
Proof.
  intros Hinv Hrun. rewrite createCart_eq in Hrun. simpl in Hrun.
  apply add_all_totals in Hrun as (Hinv' & Htot & [cart Hcart]).
  - exists cart. split; [done|]. destruct (Htot cart Hcart) as [Hitems Hsum].
    split_and!.
    + done.
    + done.
    + intros Hsmall. rewrite Hsum. apply sum_over_ext. auto.
    + intros i. split.
      * intros Hi. by eapply inv_resolve.
      * intros (it & Hit & Hc).
        destruct (inv_owned s' Hinv' i it Hit) as (cart' & Hcart' & Hin).
        rewrite Hc, Hcart in Hcart'. by injection Hcart' as <-.
  - by apply inv_new_cart.
  - intros cart. simpl. rewrite lookup_insert_eq. intros [= <-]. simpl.
    split; [|done]. intros i Hi. by apply elem_of_nil in Hi.
  - simpl. rewrite lookup_insert_eq. eauto.
Qed.

(** [shop_filled] is a fresh cart followed by two adds. *)
Lemma add_sequence_total_witness :
  ∃ cart,
    carts shop_filled !! 2%N = Some cart
    ∧ Cart.total cart = sum_over (item_total shop_filled) (Cart.items cart)
    ∧ (∀ i, i ∈ Cart.items cart → item_small shop_filled i →
         item_total shop_filled i = item_value shop_filled i)
    ∧ ((∀ i, i ∈ Cart.items cart → item_small shop_filled i) →
         Cart.total cart = sum_over (item_value shop_filled) (Cart.items cart))
    ∧ (∀ i, i ∈ Cart.items cart ↔
         ∃ it, cart_items shop_filled !! i = Some it ∧ CartItem.cart_id it = 2%N).
Proof.
  apply (add_sequence_total
           (exec_all [CreateProduct "P" 10 5; CreateProduct "Q" 7 2] empty_store)
           [(0%N, 3); (1%N, 2)] shop_filled).
  - apply exec_all_inv, inv_empty.
  - reflexivity.
Defined.



(** C9. AddItem neither reads nor modifies any inventory_count: the
    products collection after addProductToCart is the one before, the
    resolver commutes with any rewriting of the stock counts (its outcome
    and its writes do not depend on them), and with a positive qty, an
    existing cart and an existing product it succeeds whatever the stock,
    so also when the requested or resulting quantity exceeds it. *)
Theorem addProductToCart_ignores_inventory :
  (∀ product_id cart_id qty s,
     products (addProductToCart product_id cart_id qty s).1 = products s)
  ∧ (∀ f product_id cart_id qty s,
       addProductToCart product_id cart_id qty (with_inventory f s) =
         (with_inventory f (addProductToCart product_id cart_id qty s).1,
          (addProductToCart product_id cart_id qty s).2))
  ∧ (∀ product_id cart_id qty s cart product,
       0 < qty → carts s !! cart_id = Some cart →
       products s !! product_id = Some product →
       ∃ s' r, addProductToCart product_id cart_id qty s = (s', inr r)
               ∧ products s' = products s).
Proof.
  split_and!.
  - intros product_id cart_id qty s. rewrite addProductToCart_eq.
    case_decide; [done|].
    destruct (carts s !! cart_id) as [cart|]; [|done].
    destruct (products s !! product_id) as [product|]; [|done].
    unfold add_result. by destruct (matching_items _ _ _) as [|[i it] l].
  - intros f product_id cart_id qty s. rewrite !addProductToCart_eq.
    case_decide; [done|]. simpl.
    destruct (carts s !! cart_id) as [cart|]; [|done].
    rewrite lookup_fmap.
    destruct (products s !! product_id) as [product|]; [|done].
    simpl. unfold add_result. simpl.
    by destruct (matching_items _ _ _) as [|[i it] l].
  - intros product_id cart_id qty s cart product Hq Hcart Hprod.
    rewrite addProductToCart_eq, decide_False, Hcart, Hprod by lia.
    unfold add_result. destruct (matching_items _ _ _) as [|[i it] l]; eauto.
Qed.

(** Adding 100 of P, of which 5 are in stock. *)
Lemma addProductToCart_ignores_inventory_witness :
  products (addProductToCart 0 2 100 shop).1 = products shop
  ∧ addProductToCart 0 2 100 (with_inventory (λ _, 0) shop) =
      (with_inventory (λ _, 0) (addProductToCart 0 2 100 shop).1,
       (addProductToCart 0 2 100 shop).2)
  ∧ ∃ s' r, addProductToCart 0 2 100 shop = (s', inr r)
            ∧ products s' = products shop.
Proof.
  destruct addProductToCart_ignores_inventory as (Hframe & Hblind & Hsucceeds).
  split; [apply Hframe|]. split; [apply Hblind|].
  apply (Hsucceeds 0%N 2%N 100 shop (Cart.mk [] 0 false) (Product.mk "P" 10 5)).
  - lia.
  - reflexivity.
  - reflexivity.
Defined.

(** C5 (the code departs from it). getCart returns the cart's identity,
    the entries of its item array and its total, but the completed flag of
    the record it returns is the constant false, whatever the stored flag:
    on a completed cart it reports completed = false. *)
Theorem getCart_completed_false cart_id s cart :
  carts s !! cart_id = Some cart →
  Cart.completed cart = true →
  ∃ r, getCart cart_id s = (s, inr r)
       ∧ CartObject._id r = cart_id
       ∧ CartObject.total r = Cart.total cart
       ∧ CartObject.completed r = false.
Proof.
  intros Hcart _. rewrite getCart_eq, Hcart. eauto.
Qed.

(** getCart on the completed cart of [shop_completed]. *)
Lemma getCart_completed_false_witness :
  ∃ r, getCart 2 shop_completed = (shop_completed, inr r)
       ∧ CartObject._id r = 2%N
       ∧ CartObject.total r = 44
       ∧ CartObject.completed r = false.
Proof.
  apply (getCart_completed_false 2 shop_completed (Cart.mk [3%N; 4%N] 44 true));
    reflexivity.
Defined.




(** ** Further properties of the resolvers *)

(** *** completeCart on an arbitrary store *)

Lemma check_inventory_passed ids acc s s' its :
  check_inventory ids acc s = (s', inr its) →
  s' = s ∧ its = acc ++ resolved (cart_items s) ids
  ∧ ∀ i, i ∈ ids → ∃ it p, cart_items s !! i = Some it
      ∧ products s !! CartItem.product_id it = Some p
      ∧ CartItem.qty it <= Product.inventory_count p.
Proof.
  revert acc. induction ids as [|i ids IH]; intros acc; simpl.
  { intros [= <- <-]. rewrite app_nil_r. split_and!; try done.
    intros i Hi. by apply elem_of_nil in Hi. }
  unfold_op. destruct (cart_items s !! i) as [it|] eqn:Hit; simpl; [|done].
  unfold_op. destruct (products s !! CartItem.product_id it) as [p|] eqn:Hp;
    simpl; [|done].
  case_decide as Hlt; [done|]. intros Hrun.
  destruct (IH _ Hrun) as (-> & -> & Hall). split_and!; [done| |].
  - by rewrite <- app_assoc.
  - intros j [->|Hj]%elem_of_cons; [|by apply Hall].
    exists it, p. split_and!; try done. lia.
Qed.

Lemma check_inventory_error ids acc s s' e :
  check_inventory ids acc s = (s', inl e) → e ≠ DanglingProduct.
Proof.
  revert acc. induction ids as [|i ids IH]; intros acc; simpl; [done|].
  unfold_op. destruct (cart_items s !! i) as [it|]; simpl; [|by intros [= <- <-]].
  unfold_op. destruct (products s !! CartItem.product_id it) as [p|]; simpl;
    [|by intros [= <- <-]].
  case_decide; [by intros [= <- <-]|]. apply IH.
Qed.

Lemma check_inventory_prefix pre rest acc s :
  (∀ i, i ∈ pre → ∃ it p, cart_items s !! i = Some it
      ∧ products s !! CartItem.product_id it = Some p
      ∧ CartItem.qty it <= Product.inventory_count p) →
  check_inventory (pre ++ rest) acc s =
  check_inventory rest (acc ++ resolved (cart_items s) pre) s.
Proof.
  revert acc. induction pre as [|i pre IH]; intros acc Hall; simpl.
  { by rewrite app_nil_r. }
  destruct (Hall i) as (it & p & Hit & Hp & Hle); [by left|].
  unfold_op. rewrite Hit. simpl. unfold_op. rewrite Hp. simpl.
  rewrite decide_False by lia. rewrite IH.
  - by rewrite <- app_assoc.
  - intros j Hj. apply Hall. by right.
Qed.

(** A successful completeCart, spelled out. *)
Lemma completeCart_succeeded cart_id s s' r :
  completeCart cart_id s = (s', inr r) →
  ∃ cart m,
    carts s !! cart_id = Some cart ∧ Cart.completed cart = false
    ∧ (∀ i, i ∈ Cart.items cart → ∃ it p, cart_items s !! i = Some it
         ∧ products s !! CartItem.product_id it = Some p
         ∧ CartItem.qty it <= Product.inventory_count p)
    ∧ s' = mkStore m
             (<[cart_id := Cart.mk (Cart.items cart) (Cart.total cart) true]> (carts s))
             (cart_items s) (next_id s)
    ∧ r = cart_object cart_id (Cart.items cart) (Cart.total cart) true
    ∧ ∀ p, m !! p =
        take_stock (quantity_of p (resolved (cart_items s) (Cart.items cart)))
          <$> products s !! p.
Proof.
  intros Hrun.
  destruct (carts s !! cart_id) as [cart|] eqn:Hcart.
  2: { revert Hrun. unfold completeCart. unfold_op. by rewrite Hcart. }
  destruct (Cart.completed cart) eqn:Hopen.
  { by rewrite (completeCart_completed cart_id s cart) in Hrun. }
  assert (∀ i, i ∈ Cart.items cart → ∃ it p, cart_items s !! i = Some it
            ∧ products s !! CartItem.product_id it = Some p
            ∧ CartItem.qty it <= Product.inventory_count p) as Hall.
  { revert Hrun. unfold completeCart. unfold_op. rewrite Hcart. simpl.
    rewrite Hopen.
    destruct (check_inventory (Cart.items cart) [] s) as [s1 [e|its]] eqn:Hchk;
      [done|].
    intros _. by apply check_inventory_passed in Hchk as (_ & _ & Hall). }
  destruct (completeCart_ok cart_id s cart Hcart Hopen Hall) as (m & Heq & Hm).
  rewrite Heq in Hrun. injection Hrun as <- <-.
  exists cart, m. done.
Qed.

(** A completeCart that throws has written nothing. *)
Lemma completeCart_threw cart_id s s' e :
  completeCart cart_id s = (s', inl e) → s' = s ∧ e ≠ DanglingProduct.
Proof.
  unfold completeCart. unfold_op.
  destruct (carts s !! cart_id) as [cart|] eqn:Hcart; simpl;
    [|by intros [= <- <-]].
  destruct (Cart.completed cart) eqn:Hopen; [by intros [= <- <-]|].
  destruct (check_inventory (Cart.items cart) [] s) as [s1 [e1|its]] eqn:Hchk.
  - intros [= <- <-]. split; [|by eapply check_inventory_error].
    by rewrite <- (check_inventory_store (Cart.items cart) [] s), Hchk.
  - apply check_inventory_passed in Hchk as (-> & -> & Hall).
    destruct (update_inventories_ok (resolved (cart_items s) (Cart.items cart)) s)
      as (m & Hupd & _); [|by simpl; rewrite Hupd].
    intros it Hit. unfold resolved in Hit.
    apply list_elem_of_omap in Hit as (i & Hi & Hit).
    destruct (Hall i Hi) as (it' & p & Hit' & Hp & _).
    rewrite Hit' in Hit. injection Hit as <-. eauto.
Qed.

(** X1. completeCart is all or nothing on every store: when it throws,
    whatever the error, the store is the one it found, and the error is
    never the second loop's "non-existing product" (every product the
    second loop looks up was found by the first). *)
Theorem completeCart_all_or_nothing cart_id s s' e :
  completeCart cart_id s = (s', inl e) →
  s' = s ∧ e ≠ DanglingProduct.
Proof.
  intros Hrun. destruct (completeCart_threw cart_id s s' e Hrun) as [Hstore He].
  split; [exact Hstore|exact He].
Qed.

(** Completing the oversubscribed cart. *)
Lemma completeCart_all_or_nothing_witness :
  shop_oversubscribed = shop_oversubscribed
  ∧ InsufficientInventory 0 5 6 ≠ DanglingProduct.
Proof.
  apply (completeCart_all_or_nothing 2 shop_oversubscribed).
  reflexivity.
Defined.

(** X2. completeCart is not idempotent: after a successful completeCart a
    second call on the same cart throws "already completed" and leaves the
    store as the first call left it. *)
Theorem completeCart_twice cart_id s s' r :
  completeCart cart_id s = (s', inr r) →
  completeCart cart_id s' = (s', inl (CartAlreadyCompleted cart_id)).
Proof.
  intros (cart & m & _ & _ & _ & -> & _)%completeCart_succeeded.
  eapply completeCart_completed; simpl; [by rewrite lookup_insert_eq|done].
Qed.

(** Completing the filled cart twice. *)
Lemma completeCart_twice_witness :
  completeCart 2 shop_completed = (shop_completed, inl (CartAlreadyCompleted 2)).
Proof.
  apply (completeCart_twice 2 shop_filled shop_completed
           (CartObject.mk 2 [3%N; 4%N] 44 true)).
  reflexivity.
Defined.

(** X3. The first entry of the cart's item array that does not pass decides
    how completeCart fails on an open cart: when every earlier entry is a
    line item with enough stock, an entry that names no line item gives
    "non-existing item", a line item whose product is missing gives a
    TypeError, and a line item asking for more than the stock gives
    "insufficient inventory" for that very line item; the store is
    unchanged in each case. *)
Theorem completeCart_first_offender cart_id s cart pre i post :
  carts s !! cart_id = Some cart →
  Cart.completed cart = false →
  Cart.items cart = pre ++ i :: post →
  (∀ j, j ∈ pre → ∃ jt p, cart_items s !! j = Some jt
      ∧ products s !! CartItem.product_id jt = Some p
      ∧ CartItem.qty jt <= Product.inventory_count p) →
  (cart_items s !! i = None →
     completeCart cart_id s = (s, inl DanglingCartItem))
  ∧ (∀ it, cart_items s !! i = Some it →
       products s !! CartItem.product_id it = None →
       completeCart cart_id s = (s, inl TypeError))
  ∧ (∀ it p, cart_items s !! i = Some it →
       products s !! CartItem.product_id it = Some p →
       Product.inventory_count p < CartItem.qty it →
       completeCart cart_id s =
         (s, inl (InsufficientInventory (CartItem.product_id it)
                    (Product.inventory_count p) (CartItem.qty it)))).
Proof.
  intros Hcart Hopen Hitems Hpre.
  assert (completeCart cart_id s =
          match check_inventory (i :: post) (resolved (cart_items s) pre) s with
          | (s1, inl e) => (s1, inl e)
          | (s1, inr its) =>
            (bind (update_inventories its)
               (λ _, bind (Cart_save cart_id
                             (Cart.mk (Cart.items cart) (Cart.total cart) true))
                          (λ _, ret (cart_object cart_id (Cart.items cart)
                                       (Cart.total cart) true)))) s1
          end) as ->.
  { unfold completeCart. unfold_op. rewrite Hcart. simpl. rewrite Hopen, Hitems.
    by rewrite (check_inventory_prefix pre (i :: post) [] s Hpre). }
  simpl. unfold_op. split_and!.
  - by intros ->.
  - intros it -> Hp. simpl. unfold_op. by rewrite Hp.
  - intros it p -> Hp Hlt. simpl. unfold_op. rewrite Hp. simpl.
    by rewrite decide_True.
Qed.

(** The second line item of [shop_second_short] is short of stock; the only
    entry of the cart of [shop_dangling] names no line item. *)
Lemma completeCart_first_offender_witness :
  completeCart 2 shop_second_short =
    (shop_second_short, inl (InsufficientInventory 1 2 5))
  ∧ completeCart 2 shop_dangling = (shop_dangling, inl DanglingCartItem).
Proof.
  split.
  - apply (completeCart_first_offender 2 shop_second_short
             (Cart.mk [3%N; 4%N] 65 false) [3%N] 4%N []
             eq_refl eq_refl eq_refl
           ) with (it := CartItem.mk 1 2 5 35) (p := Product.mk "Q" 7 2).
    + intros j ->%list_elem_of_singleton.
      exists (CartItem.mk 0 2 3 30), (Product.mk "P" 10 5).
      split_and!; [reflexivity..|]. simpl. lia.
    + reflexivity.
    + reflexivity.
    + simpl. lia.
  - apply (completeCart_first_offender 2 shop_dangling
             (Cart.mk [9%N] 0 false) [] 9%N [] eq_refl eq_refl eq_refl).
    + intros j Hj. by apply elem_of_nil in Hj.
    + reflexivity.
Defined.

(** X4. What a successful completeCart writes, on every store: the line
    items and the next identifier are untouched, every other cart is
    untouched, the completed cart keeps its item array and total and only
    gains completed = true (which the returned record repeats), and every
    product keeps its title and price while its inventory_count drops by the
    quantity the cart's line items ask of it (nothing, for a product the cart
    does not hold). *)
Theorem completeCart_writes cart_id s s' r :
  completeCart cart_id s = (s', inr r) →
  cart_items s' = cart_items s
  ∧ next_id s' = next_id s
  ∧ (∀ c, c ≠ cart_id → carts s' !! c = carts s !! c)
  ∧ (∃ cart, carts s !! cart_id = Some cart
       ∧ carts s' !! cart_id =
           Some (Cart.mk (Cart.items cart) (Cart.total cart) true)
       ∧ r = CartObject.mk cart_id (Cart.items cart) (Cart.total cart) true
       ∧ ∀ p, products s' !! p =
           (λ prod, Product.mk (Product.title prod) (Product.price prod)
              (Product.inventory_count prod
               - quantity_of p (resolved (cart_items s) (Cart.items cart))))
           <$> products s !! p).
Proof.
  intros (cart & m & Hcart & _ & _ & -> & -> & Hm)%completeCart_succeeded.
  simpl. split_and!; try done.
  - intros c Hc. by rewrite lookup_insert_ne.
  - exists cart. split_and!; try done. by rewrite lookup_insert_eq.
Qed.

(** Completing the filled cart: P goes from 5 to 2. *)
Lemma completeCart_writes_witness :
  cart_items shop_completed = cart_items shop_filled
  ∧ next_id shop_completed = next_id shop_filled
  ∧ (∀ c, c ≠ 2%N → carts shop_completed !! c = carts shop_filled !! c)
  ∧ (∃ cart, carts shop_filled !! 2%N = Some cart
       ∧ carts shop_completed !! 2%N =
           Some (Cart.mk (Cart.items cart) (Cart.total cart) true)
       ∧ CartObject.mk 2 [3%N; 4%N] 44 true =
           CartObject.mk 2 (Cart.items cart) (Cart.total cart) true
       ∧ ∀ p, products shop_completed !! p =
           (λ prod, Product.mk (Product.title prod) (Product.price prod)
              (Product.inventory_count prod
               - quantity_of p (resolved (cart_items shop_filled) (Cart.items cart))))
           <$> products shop_filled !! p).
Proof.
  apply (completeCart_writes 2 shop_filled shop_completed
           (CartObject.mk 2 [3%N; 4%N] 44 true)).
  reflexivity.
Defined.

(** *** addProductToCart and removeProductFromCart: outcomes *)

(** X5. How addProductToCart fails and when it succeeds, on every store:
    a qty that is not positive is rejected first, then a cart that does not
    exist, then a product that does not exist, each time with the store
    unchanged; and it succeeds exactly when qty is positive and both the
    cart and the product exist. *)
Theorem addProductToCart_outcome product_id cart_id qty s :
  (qty <= 0 →
     addProductToCart product_id cart_id qty s = (s, inl (InvalidQuantity qty)))
  ∧ (0 < qty → carts s !! cart_id = None →
     addProductToCart product_id cart_id qty s = (s, inl (InvalidCartId cart_id)))
  ∧ (0 < qty → is_Some (carts s !! cart_id) → products s !! product_id = None →
     addProductToCart product_id cart_id qty s
     = (s, inl (InvalidProductId product_id)))
  ∧ ((∃ s' r, addProductToCart product_id cart_id qty s = (s', inr r))
     ↔ 0 < qty ∧ is_Some (carts s !! cart_id) ∧ is_Some (products s !! product_id)).
Proof.
  rewrite addProductToCart_eq. split_and!.
  - intros Hq. by rewrite decide_True.
  - intros Hq Hcart. by rewrite decide_False, Hcart by lia.
  - intros Hq [cart Hcart] Hprod. by rewrite decide_False, Hcart, Hprod by lia.
  - split.
    + intros (s' & r & Hrun). case_decide as Hq; [done|].
      destruct (carts s !! cart_id) as [cart|]; [|done].
      destruct (products s !! product_id) as [product|]; [|done].
      split_and!; [lia|eauto..].
    + intros (Hq & [cart Hcart] & [product Hprod]).
      rewrite decide_False, Hcart, Hprod by lia. unfold add_result.
      destruct (matching_items _ _ _) as [|[i it] l]; eauto.
Qed.

(** Adds on [shop]: qty 0, an unknown cart, an unknown product, a valid
    add. *)
Lemma addProductToCart_outcome_witness :
  addProductToCart 0 2 0 shop = (shop, inl (InvalidQuantity 0))
  ∧ addProductToCart 0 7 1 shop = (shop, inl (InvalidCartId 7))
  ∧ addProductToCart 7 2 1 shop = (shop, inl (InvalidProductId 7))
  ∧ ∃ s' r, addProductToCart 0 2 1 shop = (s', inr r).
Proof.
  split_and!.
  - apply (addProductToCart_outcome 0 2 0 shop). lia.
  - apply (addProductToCart_outcome 0 7 1 shop); [lia|reflexivity].
  - apply (addProductToCart_outcome 7 2 1 shop);
      [lia|by eexists|reflexivity].
  - apply (addProductToCart_outcome 0 2 1 shop).
    split_and!; [lia|by eexists..].
Defined.

(** X6. How removeProductFromCart fails and when it succeeds: a qty that is
    not positive is rejected first, then a cart that does not exist, then
    the absence of a line item for (product_id, cart_id), each time with
    the store unchanged; on a consistent store it succeeds exactly when qty
    is positive and the pair has a live line item. *)
Theorem removeProductFromCart_outcome product_id cart_id qty s :
  (qty <= 0 →
     removeProductFromCart product_id cart_id qty s
     = (s, inl (InvalidQuantity qty)))
  ∧ (0 < qty → carts s !! cart_id = None →
     removeProductFromCart product_id cart_id qty s
     = (s, inl (InvalidCartId cart_id)))
  ∧ (0 < qty → is_Some (carts s !! cart_id) →
     (∀ i it, cart_items s !! i = Some it →
        ¬ (CartItem.product_id it = product_id ∧ CartItem.cart_id it = cart_id)) →
     removeProductFromCart product_id cart_id qty s = (s, inl ItemNotInCart))
  ∧ (store_inv s →
     ((∃ s' r, removeProductFromCart product_id cart_id qty s = (s', inr r))
      ↔ 0 < qty ∧ ∃ i it, cart_items s !! i = Some it
          ∧ CartItem.product_id it = product_id ∧ CartItem.cart_id it = cart_id)).
Proof.
  rewrite removeProductFromCart_eq. split_and!.
  - intros Hq. by rewrite decide_True.
  - intros Hq Hcart. by rewrite decide_False, Hcart by lia.
  - intros Hq [cart Hcart] Hnone%matching_items_nil.
    by rewrite decide_False, Hcart, Hnone by lia.
  - intros Hinv. split.
    + intros (s' & r & Hrun). case_decide as Hq; [done|].
      destruct (carts s !! cart_id) as [cart|]; [|done].
      destruct (matching_items _ _ _) as [|[i it] l] eqn:Hfind; [done|].
      apply matching_items_head in Hfind as (Hi & Hp & Hc).
      split; [lia|]. by exists i, it.
    + intros (Hq & i & it & Hi & Hp & Hc).
      destruct (inv_owned s Hinv i it Hi) as (cart & Hcart & _).
      destruct (inv_product s Hinv i it Hi) as [product Hprod].
      rewrite Hc in Hcart. rewrite decide_False, Hcart by lia.
      destruct (matching_items_unique product_id cart_id (cart_items s) i it)
        as [l ->]; try done; [by apply inv_pair|].
      rewrite Hprod. unfold remove_result. case_decide; eauto.
Qed.

(** Removes on [shop_filled]: qty 0, an unknown cart, a product the cart
    does not hold, a valid remove. *)
Lemma removeProductFromCart_outcome_witness :
  removeProductFromCart 0 2 0 shop_filled = (shop_filled, inl (InvalidQuantity 0))
  ∧ removeProductFromCart 0 7 1 shop_filled = (shop_filled, inl (InvalidCartId 7))
  ∧ removeProductFromCart 7 2 1 shop_filled = (shop_filled, inl ItemNotInCart)
  ∧ ∃ s' r, removeProductFromCart 0 2 1 shop_filled = (s', inr r).
Proof.
  split_and!.
  - apply (removeProductFromCart_outcome 0 2 0 shop_filled). lia.
  - apply (removeProductFromCart_outcome 0 7 1 shop_filled); [lia|reflexivity].
  - apply (removeProductFromCart_outcome 7 2 1 shop_filled); [lia|by eexists|].
    intros i it Hi [Hp _].
    assert (is_Some (products shop_filled !! CartItem.product_id it)) as Hprod.
    { eapply (inv_product shop_filled); [|exact Hi].
      apply exec_all_inv, exec_all_inv, inv_empty. }
    rewrite Hp in Hprod. by destruct Hprod.
  - apply (removeProductFromCart_outcome 0 2 1 shop_filled).
    + apply exec_all_inv, exec_all_inv, inv_empty.
    + split; [lia|]. by exists 3%N, (CartItem.mk 0 2 3 30).
Defined.







(** *** The catalogue: createProduct, getProductById, getProductByTitle,
    getAllProducts, and createCart *)

Lemma elem_of_listing (P : N * Product.t → Prop) `{!∀ kv, Decision (P kv)}
    (m : gmap N Product.t) po :
  po ∈ product_object <$> filter P (map_to_list m) ↔
  ∃ id p, m !! id = Some p ∧ P (id, p)
          ∧ po = ProductObject.mk id (Product.title p) (Product.price p)
                   (Product.inventory_count p).
Proof.
  rewrite list_elem_of_fmap. split.
  - intros ([id p] & -> & Hin). apply list_elem_of_filter in Hin as [Hq Hin].
    apply elem_of_map_to_list in Hin. by exists id, p.
  - intros (id & p & Hp & Hq & ->). exists (id, p). split; [done|].
    apply list_elem_of_filter. split; [done|]. by apply elem_of_map_to_list.
Qed.

Lemma NoDup_listing (P : N * Product.t → Prop) `{!∀ kv, Decision (P kv)}
    (m : gmap N Product.t) :
  NoDup (ProductObject._id <$> (product_object <$> filter P (map_to_list m))).
Proof.
  rewrite <- list_fmap_compose.
  change (ProductObject._id ∘ product_object) with (@fst N Product.t).
  apply (sublist_NoDup _ ((map_to_list m).*1)).
  - apply NoDup_fst_map_to_list.
  - apply fmap_sublist, sublist_filter.
Qed.

(** X10. createCart never throws: it stores and returns an empty,
    not completed cart with total 0 under the next identifier, which on a
    consistent store no product, cart or line item was using; a getCart of
    that identifier right after returns the same record; products, line
    items and all other carts are untouched. *)
Theorem createCart_then_getCart s :
  ∃ s1 r,
    createCart s = (s1, inr r)
    ∧ r = CartObject.mk (next_id s) [] 0 false
    ∧ getCart (next_id s) s1 = (s1, inr r)
    ∧ products s1 = products s
    ∧ cart_items s1 = cart_items s
    ∧ (∀ c, c ≠ next_id s → carts s1 !! c = carts s !! c)
    ∧ (store_inv s →
       products s !! next_id s = None ∧ carts s !! next_id s = None
       ∧ cart_items s !! next_id s = None).
Proof.
  eexists _, _. split; [apply createCart_eq|]. split; [done|].
  split.
  { rewrite getCart_eq. simpl. by rewrite lookup_insert_eq. }
  simpl. split_and!; try done.
  - intros c Hc. by rewrite lookup_insert_ne.
  - intros Hinv. split_and!.
    + destruct (products s !! next_id s) eqn:E; [|done].
      assert (next_id s < next_id s)%N by (eapply inv_products_below; eauto). lia.
    + destruct (carts s !! next_id s) eqn:E; [|done].
      assert (next_id s < next_id s)%N by (eapply inv_carts_below; eauto). lia.
    + destruct (cart_items s !! next_id s) eqn:E; [|done].
      assert (next_id s < next_id s)%N by (eapply inv_items_below; eauto). lia.
Qed.

(** A cart created in [shop]: identifier 3 was not in use. *)
Lemma createCart_then_getCart_witness :
  ∃ s1 r,
    createCart shop = (s1, inr r)
    ∧ r = CartObject.mk (next_id shop) [] 0 false
    ∧ getCart (next_id shop) s1 = (s1, inr r)
    ∧ products shop !! next_id shop = None
    ∧ carts shop !! next_id shop = None
    ∧ cart_items shop !! next_id shop = None.
Proof.
  destruct (createCart_then_getCart shop)
    as (s1 & r & Hcreate & Hr & Hget & _ & _ & _ & Hfresh).
  exists s1, r. split_and!; try done; apply Hfresh, exec_all_inv, inv_empty.
Defined.

(** X11. createProduct checks the title and nothing else.  With a
    non-empty title, whatever the price and inventory_count (negative
    counts included), it stores and returns the product under the next
    identifier, a getProductById of that identifier right after returns the
    same record, and carts, line items and all other products are
    untouched.  With an empty title the save is rejected: createProduct
    throws a validation error and products, carts and line items are as
    before.  getProductById of an identifier that names no product throws
    "does not exist" and, like every getProductById, leaves the store
    unchanged. *)
Theorem createProduct_then_getProductById title price inventory_count s :
  (title ≠ EmptyString →
   ∃ s1 r,
     createProduct title price inventory_count s = (s1, inr r)
     ∧ r = ProductObject.mk (next_id s) title price inventory_count
     ∧ getProductById (next_id s) s1 = (s1, inr r)
     ∧ carts s1 = carts s
     ∧ cart_items s1 = cart_items s
     ∧ (∀ p, p ≠ next_id s → products s1 !! p = products s !! p))
  ∧ (title = EmptyString →
     ∃ s1,
       createProduct title price inventory_count s = (s1, inl ValidationError)
       ∧ products s1 = products s
       ∧ carts s1 = carts s
       ∧ cart_items s1 = cart_items s)
  ∧ (∀ p, products s !! p = None →
       getProductById p s = (s, inl (ProductNotFound p)))
  ∧ (∀ p, (getProductById p s).1 = s).
Proof.
  split_and!.
  - intros Htitle. eexists _, _. split.
    { by rewrite createProduct_eq, decide_False. }
    split; [done|]. split.
    { unfold getProductById. unfold_op. by rewrite lookup_insert_eq. }
    simpl. split_and!; try done.
    intros p Hp. by rewrite lookup_insert_ne.
  - intros Htitle. eexists. split.
    { by rewrite createProduct_eq, decide_True. }
    done.
  - intros p Hp. unfold getProductById. unfold_op. by rewrite Hp.
  - intros p. unfold getProductById. unfold_op. by destruct (products s !! p).
Qed.

(** A product with a negative count is accepted, one with an empty title
    is not; product 7 does not exist in [shop]. *)
Lemma createProduct_then_getProductById_witness :
  (∃ s1 r,
     createProduct "R" 3 (-4) shop = (s1, inr r)
     ∧ r = ProductObject.mk (next_id shop) "R" 3 (-4)
     ∧ getProductById (next_id shop) s1 = (s1, inr r)
     ∧ carts s1 = carts shop
     ∧ cart_items s1 = cart_items shop
     ∧ (∀ p, p ≠ next_id shop → products s1 !! p = products shop !! p))
  ∧ (∃ s1,
       createProduct EmptyString 3 1 shop = (s1, inl ValidationError)
       ∧ products s1 = products shop
       ∧ carts s1 = carts shop
       ∧ cart_items s1 = cart_items shop)
  ∧ getProductById 7 shop = (shop, inl (ProductNotFound 7)).
Proof.
  destruct (createProduct_then_getProductById "R" 3 (-4) shop)
    as (Hcreate & _ & Hmissing & _).
  destruct (createProduct_then_getProductById EmptyString 3 1 shop)
    as (_ & Hreject & _).
  split; [by apply Hcreate|]. split; [by apply Hreject|].
  apply Hmissing. reflexivity.
Defined.

(** X12. getAllProducts never throws and leaves the store unchanged.  With
    filter_no_inventory = true it returns exactly the products whose
    inventory_count is greater than 0, with false exactly all products;
    each with its identifier, title, price and inventory_count, and no
    identifier twice. *)
Theorem getAllProducts_lists filter_no_inventory s :
  ∃ ps,
    getAllProducts filter_no_inventory s = (s, inr ps)
    ∧ (∀ po, po ∈ ps ↔
         ∃ id p, products s !! id = Some p
           ∧ (filter_no_inventory = true → 0 < Product.inventory_count p)
           ∧ po = ProductObject.mk id (Product.title p) (Product.price p)
                    (Product.inventory_count p))
    ∧ NoDup (ProductObject._id <$> ps).
Proof.
  destruct filter_no_inventory.
  - exists (product_object <$>
              filter (λ kv, Is_true (bool_decide (0 < Product.inventory_count kv.2)))
                     (map_to_list (products s))).
    split; [reflexivity|].
    split; [|apply NoDup_listing].
    intros po. rewrite elem_of_listing.
    split; intros (id & p & Hp & Hq & ->); exists id, p; split_and!; try done.
    + intros _. by apply bool_decide_unpack in Hq.
    + apply bool_decide_pack. by apply Hq.
  - exists (product_object <$>
              filter (λ kv, Is_true ((λ _ : Product.t, true) kv.2))
                     (map_to_list (products s))).
    split; [reflexivity|]. split; [|apply NoDup_listing].
    intros po. rewrite elem_of_listing.
    split; intros (id & p & Hp & Hq & ->); exists id, p; split_and!; done.
Qed.

(** X13. getProductByTitle never throws and leaves the store unchanged: it
    returns exactly the products whose title is the requested one, no
    identifier twice, and the empty list exactly when no product has that
    title. *)
Theorem getProductByTitle_lists product_title s :
  ∃ ps,
    getProductByTitle product_title s = (s, inr ps)
    ∧ (∀ po, po ∈ ps ↔
         ∃ id p, products s !! id = Some p
           ∧ Product.title p = product_title
           ∧ po = ProductObject.mk id (Product.title p) (Product.price p)
                    (Product.inventory_count p))
    ∧ NoDup (ProductObject._id <$> ps)
    ∧ (ps = [] ↔
       ∀ id p, products s !! id = Some p → Product.title p ≠ product_title).
Proof.
  exists (product_object <$>
            filter (λ kv, Is_true (bool_decide (Product.title kv.2 = product_title)))
                   (map_to_list (products s))).
  split; [reflexivity|].
  assert (∀ po, po ∈ product_object <$>
              filter (λ kv, Is_true (bool_decide (Product.title kv.2 = product_title)))
                     (map_to_list (products s)) ↔
            ∃ id p, products s !! id = Some p
              ∧ Product.title p = product_title
              ∧ po = ProductObject.mk id (Product.title p) (Product.price p)
                       (Product.inventory_count p)) as Hmem.
  { intros po. rewrite elem_of_listing.
    split; intros (id & p & Hp & Hq & ->); exists id, p; split_and!; try done.
    - by apply bool_decide_unpack in Hq.
    - by apply bool_decide_pack. }
  split; [exact Hmem|].
  split; [apply NoDup_listing|]. split.
  - intros Hnil id p Hp Ht.
    assert (ProductObject.mk id (Product.title p) (Product.price p)
              (Product.inventory_count p) ∈ @nil ProductObject.t) as Hin.
    { rewrite <- Hnil. apply Hmem. by exists id, p. }
    by apply elem_of_nil in Hin.
  - intros Hnone.
    destruct (product_object <$> _) as [|po ps]; [done|].
    assert (po ∈ po :: ps) as Hin by left.
    apply Hmem in Hin as (id & p & Hp & Ht & _). by destruct (Hnone id p Hp).
Qed.

(** X14. On a consistent store, a successful completeCart that takes the
    whole stock of a product takes it off the in-stock catalogue: afterwards
    getAllProducts(false) still lists the product, with inventory_count 0,
    and getAllProducts(true) does not list it. *)
Theorem completeCart_sells_out cart_id s cart i it p :
  store_inv s →
  carts s !! cart_id = Some cart →
  Cart.completed cart = false →
  (∀ j jt q, j ∈ Cart.items cart → cart_items s !! j = Some jt →
     products s !! CartItem.product_id jt = Some q →
     CartItem.qty jt <= Product.inventory_count q) →
  i ∈ Cart.items cart →
  cart_items s !! i = Some it →
  products s !! CartItem.product_id it = Some p →
  CartItem.qty it = Product.inventory_count p →
  ∃ s' r all available,
    completeCart cart_id s = (s', inr r)
    ∧ getAllProducts false s' = (s', inr all)
    ∧ getAllProducts true s' = (s', inr available)
    ∧ ProductObject.mk (CartItem.product_id it) (Product.title p)
        (Product.price p) 0 ∈ all
    ∧ CartItem.product_id it ∉ ProductObject._id <$> available.
Proof.
  intros Hinv Hcart Hopen Hpass Hi Hit Hp Hall.
  assert (∀ j, j ∈ Cart.items cart → ∃ jt q, cart_items s !! j = Some jt
            ∧ products s !! CartItem.product_id jt = Some q
            ∧ CartItem.qty jt <= Product.inventory_count q) as Hok.
  { intros j Hj.
    destruct (inv_items_checkable s cart_id cart Hinv Hcart j Hj)
      as (jt & Hjt & [q Hq]).
    exists jt, q. eauto. }
  destruct (completeCart_ok cart_id s cart Hcart Hopen Hok) as (m & Heq & Hm).
  assert (m !! CartItem.product_id it =
          Some (Product.mk (Product.title p) (Product.price p) 0)) as Hsold.
  { rewrite Hm, Hp. simpl. unfold take_stock.
    rewrite (inv_cart_quantity s cart_id cart i it) by done.
    by rewrite Hall, Z.sub_diag. }
  eexists _, _, _, _. split; [exact Heq|]. split; [reflexivity|].
  split; [reflexivity|]. split.
  - apply elem_of_listing. simpl. eauto.
  - intros (po & Hid & Hpo)%list_elem_of_fmap.
    apply elem_of_listing in Hpo as (id & q & Hq & Hstock & ->).
    simpl in *. subst id. rewrite Hsold in Hq. injection Hq as <-.
    by apply bool_decide_unpack in Hstock.
Qed.

(** Completing the cart of [shop_filled] takes the 2 units of Q. *)
Lemma completeCart_sells_out_witness :
  ∃ s' r all available,
    completeCart 2 shop_filled = (s', inr r)
    ∧ getAllProducts false s' = (s', inr all)
    ∧ getAllProducts true s' = (s', inr available)
    ∧ ProductObject.mk 1 "Q" 7 0 ∈ all
    ∧ 1%N ∉ ProductObject._id <$> available.
Proof.
  apply (completeCart_sells_out 2 shop_filled (Cart.mk [3%N; 4%N] 44 false)
           4%N (CartItem.mk 1 2 2 14) (Product.mk "Q" 7 2)).
  - apply exec_all_inv, exec_all_inv, inv_empty.
  - reflexivity.
  - reflexivity.
  - intros j jt q Hj Hjt Hq. simpl in Hj.
    apply elem_of_cons in Hj as [->|Hj];
      [|apply elem_of_cons in Hj as [->|Hj]; [|by apply elem_of_nil in Hj]].
    + vm_compute in Hjt. injection Hjt as <-. vm_compute in Hq.
      injection Hq as <-. simpl. lia.
    + vm_compute in Hjt. injection Hjt as <-. vm_compute in Hq.
      injection Hq as <-. simpl. lia.
  - right. left.
  - reflexivity.
  - reflexivity.
  - reflexivity.
Defined.

(** *** Totals across all requests *)

Lemma sum_over_delete f (l : list N) k i :
  l !! k = Some i → sum_over f (delete k l) = sum_over f l - f i.
Proof.
  revert k. induction l as [|j l IH]; intros [|k] Hk; simpl in *; try done.
  - injection Hk as ->. unfold sum_over. simpl. lia.
  - change (f j + sum_over f (delete k l) = f j + sum_over f l - f i).
    rewrite (IH k) by done. lia.
Qed.

Lemma totals_empty : totals_ok empty_store.
Proof. split; simpl; intros *; by rewrite lookup_empty. Qed.

(** A line item and its cart move by the same amount [price * d]. *)
Lemma totals_set_item s i it cart p qty' total' cart_total' completed' :
  store_inv s → totals_ok s →
  cart_items s !! i = Some it →
  carts s !! CartItem.cart_id it = Some cart →
  products s !! CartItem.product_id it = Some p →
  total' - CartItem.total it = Product.price p * (qty' - CartItem.qty it) →
  cart_total' - Cart.total cart = total' - CartItem.total it →
  totals_ok
    (mkStore (products s)
       (<[CartItem.cart_id it := Cart.mk (Cart.items cart) cart_total' completed']>
          (carts s))
       (<[i := CartItem.mk (CartItem.product_id it) (CartItem.cart_id it)
                 qty' total']> (cart_items s))
       (next_id s)).
Proof.
  intros Hinv [Hitems Hcarts] Hi Hcart Hp Htotal Hcart_total. split; simpl.
  - intros j jt q Hj Hq. destruct (decide (i = j)) as [<-|Hne].
    + rewrite lookup_insert_eq in Hj. injection Hj as <-. simpl in *.
      rewrite Hp in Hq. injection Hq as <-.
      pose proof (Hitems i it p Hi Hp). lia.
    + rewrite lookup_insert_ne in Hj by done. eauto.
  - intros d dcart Hd.
    destruct (decide (CartItem.cart_id it = d)) as [<-|Hne].
    + rewrite lookup_insert_eq in Hd. injection Hd as <-. simpl.
      destruct (inv_owned s Hinv i it Hi) as (cart' & Hcart' & Hin).
      rewrite Hcart in Hcart'. injection Hcart' as <-.
      rewrite (sum_over_bump (item_total s) _ (Cart.items cart) i
                 (total' - CartItem.total it)).
      * rewrite <- (Hcarts _ cart Hcart). lia.
      * by eapply inv_nodup.
      * done.
      * intros j Hj Hji. unfold item_total. simpl.
        by rewrite lookup_insert_ne by done.
      * unfold item_total. simpl. rewrite lookup_insert_eq, Hi. simpl. lia.
    + rewrite lookup_insert_ne in Hd by done.
      rewrite (Hcarts d dcart Hd). apply sum_over_ext.
      intros j Hj. unfold item_total. simpl.
      destruct (inv_resolve s Hinv d dcart j Hd Hj) as (jt & Hjt & Hjd).
      rewrite lookup_insert_ne; [done|]. intros <-. congruence.
Qed.

Lemma totals_new_item s c cart p product q completed' :
  store_inv s → totals_ok s →
  carts s !! c = Some cart → products s !! p = Some product →
  totals_ok
    (mkStore (products s)
       (<[c := Cart.mk (Cart.items cart ++ [next_id s])
                 (Cart.total cart + Product.price product * q) completed']>
          (carts s))
       (<[next_id s := CartItem.mk p c q (Product.price product * q)]>
          (cart_items s))
       (N.succ (next_id s))).
Proof.
  intros Hinv [Hitems Hcarts] Hcart Hprod.
  assert (∀ d dcart j, carts s !! d = Some dcart → j ∈ Cart.items dcart →
            next_id s ≠ j) as Hold.
  { intros d dcart j Hd Hj <-.
    destruct (inv_resolve s Hinv d dcart _ Hd Hj) as (jt & Hjt & _).
    assert (next_id s < next_id s)%N by (eapply inv_items_below; eauto). lia. }
  split; simpl.
  - intros j jt q' Hj Hq. destruct (decide (next_id s = j)) as [<-|Hne].
    + rewrite lookup_insert_eq in Hj. injection Hj as <-. simpl in *.
      rewrite Hprod in Hq. by injection Hq as <-.
    + rewrite lookup_insert_ne in Hj by done. eauto.
  - intros d dcart Hd. destruct (decide (c = d)) as [<-|Hne].
    + rewrite lookup_insert_eq in Hd. injection Hd as <-. simpl.
      rewrite sum_over_app, (sum_over_ext _ (item_total s) (Cart.items cart)).
      * rewrite <- (Hcarts c cart Hcart). unfold sum_over at 1. simpl.
        unfold item_total at 1. simpl. rewrite lookup_insert_eq. simpl. lia.
      * intros j Hj. unfold item_total. simpl.
        rewrite lookup_insert_ne; [done|]. by eapply Hold.
    + rewrite lookup_insert_ne in Hd by done.
      rewrite (Hcarts d dcart Hd). apply sum_over_ext.
      intros j Hj. unfold item_total. simpl.
      rewrite lookup_insert_ne; [done|]. by eapply Hold.
Qed.

Lemma totals_delete_item s i it cart p k completed' :
  store_inv s → totals_ok s →
  cart_items s !! i = Some it →
  carts s !! CartItem.cart_id it = Some cart →
  products s !! CartItem.product_id it = Some p →
  Cart.items cart !! k = Some i →
  totals_ok
    (mkStore (products s)
       (<[CartItem.cart_id it :=
            Cart.mk (delete k (Cart.items cart))
              (Cart.total cart - CartItem.qty it * Product.price p) completed']>
          (carts s))
       (delete i (cart_items s)) (next_id s)).
Proof.
  intros Hinv [Hitems Hcarts] Hi Hcart Hp Hk. split; simpl.
  - intros j jt q Hj Hq. apply lookup_delete_Some in Hj as [_ Hj]. eauto.
  - intros d dcart Hd.
    destruct (decide (CartItem.cart_id it = d)) as [<-|Hne].
    + rewrite lookup_insert_eq in Hd. injection Hd as <-. simpl.
      rewrite (sum_over_ext _ (item_total s)).
      * rewrite (sum_over_delete _ _ k i Hk), <- (Hcarts _ cart Hcart).
        unfold item_total. rewrite Hi. simpl.
        rewrite (Hitems i it p Hi Hp). lia.
      * intros j Hj.
        apply (elem_of_delete_NoDup _ _ i) in Hj as [_ Hji];
          [|by eapply inv_nodup|done].
        unfold item_total. simpl. by rewrite lookup_delete_ne.
    + rewrite lookup_insert_ne in Hd by done.
      rewrite (Hcarts d dcart Hd). apply sum_over_ext.
      intros j Hj. unfold item_total. simpl.
      destruct (inv_resolve s Hinv d dcart j Hd Hj) as (jt & Hjt & Hjd).
      rewrite lookup_delete_ne; [done|]. intros <-. congruence.
Qed.

Lemma totals_set_products s m :
  totals_ok s →
  (∀ p prod', m !! p = Some prod' →
     ∃ prod, products s !! p = Some prod ∧ Product.price prod' = Product.price prod) →
  totals_ok (mkStore m (carts s) (cart_items s) (next_id s)).
Proof.
  intros [Hitems Hcarts] Hm. split; simpl; [|done].
  intros i it p' Hi Hp'. destruct (Hm _ _ Hp') as (p & Hp & ->). eauto.
Qed.

Lemma totals_set_cart s c cart completed' :
  totals_ok s → carts s !! c = Some cart →
  totals_ok (mkStore (products s)
               (<[c := Cart.mk (Cart.items cart) (Cart.total cart) completed']>
                  (carts s))
               (cart_items s) (next_id s)).
Proof.
  intros [Hitems Hcarts] Hcart. split; simpl; [done|].
  intros d dcart Hd. destruct (decide (c = d)) as [<-|Hne].
  - rewrite lookup_insert_eq in Hd. injection Hd as <-. simpl. eauto.
  - rewrite lookup_insert_ne in Hd by done. eauto.
Qed.

Lemma totals_new_cart s :
  totals_ok s →
  totals_ok (mkStore (products s) (<[next_id s := Cart.mk [] 0 false]> (carts s))
               (cart_items s) (N.succ (next_id s))).
Proof.
  intros [Hitems Hcarts]. split; simpl; [done|].
  intros d dcart Hd. destruct (decide (next_id s = d)) as [<-|Hne].
  - rewrite lookup_insert_eq in Hd. by injection Hd as <-.
  - rewrite lookup_insert_ne in Hd by done. eauto.
Qed.

Lemma totals_new_product s product :
  store_inv s → totals_ok s →
  totals_ok (mkStore (<[next_id s := product]> (products s)) (carts s)
               (cart_items s) (N.succ (next_id s))).
Proof.
  intros Hinv [Hitems Hcarts]. split; simpl; [|done].
  intros i it p Hi Hp. rewrite lookup_insert_ne in Hp; [eauto|].
  intros Heq. destruct (inv_product s Hinv i it Hi) as [q Hq].
  assert (CartItem.product_id it < next_id s)%N
    by (eapply inv_products_below; eauto).
  lia.
Qed.

Lemma small_part p a b B : 0 < a → a <= b → Z.abs (p * b) < B → Z.abs (p * a) < B.
Proof. intros. rewrite Z.abs_mul in *. nia. Qed.

Lemma addProductToCart_totals_ok product_id cart_id qty s :
  store_inv s → totals_ok s →
  amounts_small (addProductToCart product_id cart_id qty s).1 →
  totals_ok (addProductToCart product_id cart_id qty s).1.
Proof.
  intros Hinv Htot.
  destruct (decide (qty <= 0)) as [Hq|Hq].
  { by rewrite addProductToCart_eq, decide_True. }
  destruct (carts s !! cart_id) as [cart|] eqn:Hcart.
  2: { by rewrite addProductToCart_eq, decide_False, Hcart. }
  destruct (products s !! product_id) as [product|] eqn:Hprod.
  2: { by rewrite addProductToCart_eq, decide_False, Hcart, Hprod. }
  assert (0 < qty) as Hq' by lia.
  destruct (matching_items product_id cart_id (cart_items s))
    as [|[i it] l] eqn:Hfind.
  - rewrite (add_new s product_id cart_id qty cart product) by done.
    intros Hafter.
    assert (Z.abs (Product.price product * qty) < 2 ^ 53) as Hsmall.
    { pose proof (Hafter (next_id s) _ (lookup_insert_eq _ _ _)) as Hi.
      unfold item_small, item_value in Hi. simpl in Hi.
      rewrite lookup_insert_eq in Hi. simpl in Hi. by rewrite Hprod in Hi. }
    rewrite (js_mul_exact _ _ Hsmall). by apply totals_new_item.
  - apply matching_items_head in Hfind as (Hi & Hp & Hc).
    rewrite (add_existing s product_id cart_id qty cart product i it) by done.
    intros Hafter.
    assert (Z.abs (Product.price product * qty) < 2 ^ 53) as Hsmall.
    { pose proof (Hafter i _ (lookup_insert_eq _ _ _)) as Hsum.
      unfold item_small, item_value in Hsum. simpl in Hsum.
      rewrite lookup_insert_eq in Hsum. simpl in Hsum. rewrite Hprod in Hsum.
      apply small_parts in Hsum as [_ Hsum]; [done| |done].
      by eapply inv_qty. }
    rewrite (js_mul_exact _ _ Hsmall).
    subst product_id cart_id. simpl.
    apply (totals_set_item s i it cart product); try done; lia.
Qed.

Lemma removeProductFromCart_totals_ok product_id cart_id qty s :
  store_inv s → totals_ok s → amounts_small s →
  totals_ok (removeProductFromCart product_id cart_id qty s).1.
Proof.
  intros Hinv Htot Hbefore.
  destruct (decide (qty <= 0)) as [Hq|Hq].
  { by rewrite removeProductFromCart_eq, decide_True. }
  destruct (carts s !! cart_id) as [cart|] eqn:Hcart.
  2: { by rewrite removeProductFromCart_eq, decide_False, Hcart. }
  destruct (matching_items product_id cart_id (cart_items s))
    as [|[i it] l] eqn:Hfind.
  { by rewrite removeProductFromCart_eq, decide_False, Hcart, Hfind. }
  apply matching_items_head in Hfind as (Hi & Hp & Hc).
  destruct (inv_product s Hinv i it Hi) as [product Hprod].
  assert (0 < qty) as Hq' by lia.
  assert (Z.abs (Product.price product * CartItem.qty it) < 2 ^ 53) as Hsmall.
  { pose proof (Hbefore i it Hi) as Hit.
    unfold item_small, item_value in Hit. by rewrite Hi, Hprod in Hit. }
  destruct (decide (CartItem.qty it <= qty)) as [Hle|Hgt].
  - destruct (remove_all s product_id cart_id qty cart product i it)
      as (k & Hk & ->); try done; [congruence|].
    rewrite (js_mul_exact _ _ Hsmall), (Z.mul_comm (Product.price product)).
    subst product_id cart_id. simpl. by apply totals_delete_item.
  - rewrite (remove_some s product_id cart_id qty cart product i it)
      by (done || lia || congruence).
    rewrite (js_mul_exact (Product.price product) qty)
      by (apply (small_part _ _ (CartItem.qty it)); (done || lia)).
    subst product_id cart_id. simpl.
    apply (totals_set_item s i it cart product); try done; lia.
Qed.

Lemma completeCart_totals_ok cart_id s :
  totals_ok s → totals_ok (completeCart cart_id s).1.
Proof.
  intros Htot. destruct (completeCart cart_id s) as [s' [e|r]] eqn:Hrun.
  - by apply completeCart_threw in Hrun as [-> _].
  - apply completeCart_succeeded in Hrun
      as (cart & m & Hcart & _ & _ & -> & _ & Hm).
    simpl. apply (totals_set_cart (mkStore _ _ _ _)); [|done].
    apply totals_set_products; [done|].
    intros p prod'. rewrite Hm.
    destruct (products s !! p) as [prod|]; simpl; [|done].
    intros [= <-]. eauto.
Qed.

Lemma exec_totals_ok r s :
  store_inv s → totals_ok s → amounts_small s → amounts_small (exec r s) →
  totals_ok (exec r s).
Proof.
  intros Hinv Htot Hbefore. unfold exec, root, bind. destruct r.
  - intros _. rewrite getCart_eq. by destruct (carts s !! cart_id).
  - intros _. unfold getProductById. unfold_op.
    by destruct (products s !! product_id).
  - done.
  - done.
  - intros _. rewrite createCart_eq. simpl. by apply totals_new_cart.
  - intros _. rewrite createProduct_eq. case_decide; simpl.
    + by destruct Htot.
    + by apply totals_new_product.
  - pose proof (addProductToCart_totals_ok product_id cart_id qty s Hinv Htot) as H.
    by destruct (addProductToCart _ _ _ s) as [s' []].
  - pose proof (removeProductFromCart_totals_ok product_id cart_id qty s
                  Hinv Htot Hbefore) as H.
    by destruct (removeProductFromCart _ _ _ s) as [s' []].
  - intros _. pose proof (completeCart_totals_ok cart_id s Htot) as H.
    by destruct (completeCart _ s) as [s' []].
Qed.

Lemma small_run_head rs s : small_run rs s → amounts_small s.
Proof. destruct rs; by intros [? _]. Qed.

Lemma exec_all_totals_ok rs s :
  store_inv s → totals_ok s → small_run rs s →
  store_inv (exec_all rs s) ∧ totals_ok (exec_all rs s).
Proof.
  revert s. induction rs as [|r rs IH]; intros s Hinv Htot Hsmall; [done|].
  destruct Hsmall as [Hbefore Hrest].
  simpl. apply IH; [by apply exec_inv| |done].
  apply exec_totals_ok; try done. by eapply small_run_head.
Qed.

Lemma totals_item_value s c cart i :
  store_inv s → totals_ok s → carts s !! c = Some cart → i ∈ Cart.items cart →
  item_total s i = item_value s i.
Proof.
  intros Hinv Htot Hcart Hi.
  destruct (inv_resolve s Hinv c cart i Hcart Hi) as (it & Hit & _).
  destruct (inv_product s Hinv i it Hit) as [p Hp].
  unfold item_total, item_value. rewrite Hit, Hp. simpl.
  by eapply totals_items.
Qed.

(** X15. Every store that a sequence of requests builds from the empty
    store is consistent, and every request keeps a consistent store
    consistent: each entry of a cart's item array is a live line item of
    that cart and occurs once, each line item is listed by the cart it names,
    no (cart, product) pair has two line items, each line item's product
    exists, each line item's qty is positive, and every identifier in use
    lies below the next identifier. *)
Theorem store_inv_invariant :
  (∀ r s, store_inv s → store_inv (exec r s))
  ∧ (∀ rs, store_inv (exec_all rs empty_store)).
Proof.
  split.
  - intros r s Hinv. by apply exec_inv.
  - intros rs. apply exec_all_inv. exact inv_empty.
Qed.

(** X16. Along every sequence of requests (adds, removes, completions,
    creations, queries, on any carts) from the empty store during which
    price * qty of every line item stays below 2^53 in absolute value,
    every cart's total equals the sum of its line items' totals and the sum
    of price * qty over its line items; on a consistent store every request
    keeps these totals in step when the amounts are small before and after
    it. *)
Theorem totals_invariant :
  (∀ r s, store_inv s → totals_ok s →
          amounts_small s → amounts_small (exec r s) → totals_ok (exec r s))
  ∧ (∀ rs c cart,
       small_run rs empty_store →
       carts (exec_all rs empty_store) !! c = Some cart →
       Cart.total cart
         = sum_over (item_total (exec_all rs empty_store)) (Cart.items cart)
       ∧ Cart.total cart
         = sum_over (item_value (exec_all rs empty_store)) (Cart.items cart)).
Proof.
  split.
  - intros r s. apply exec_totals_ok.
  - intros rs c cart Hsmall Hcart.
    destruct (exec_all_totals_ok rs empty_store inv_empty totals_empty Hsmall)
      as [Hinv Htot].
    pose proof (totals_carts _ Htot c cart Hcart) as Hsum.
    split; [done|]. rewrite Hsum. apply sum_over_ext.
    intros i Hi. by eapply totals_item_value.
Qed.

(** The cart of [shop_filled] after removing 1 of P: 2 * 10 + 2 * 7. *)
Lemma totals_invariant_witness :
  Cart.total (Cart.mk [3%N; 4%N] 34 false)
    = sum_over (item_total (exec (RemoveProductFromCart 0 2 1) shop_filled))
        [3%N; 4%N]
  ∧ Cart.total (Cart.mk [3%N; 4%N] 34 false)
    = sum_over (item_value (exec (RemoveProductFromCart 0 2 1) shop_filled))
        [3%N; 4%N].
Proof.
  destruct totals_invariant as [_ Hreach].
  apply (Hreach [CreateProduct "P" 10 5; CreateProduct "Q" 7 2; CreateCart;
                 AddProductToCart 0 2 3; AddProductToCart 1 2 2;
                 RemoveProductFromCart 0 2 1] 2%N (Cart.mk [3%N; 4%N] 34 false)).
  - cbn [small_run]. split_and!; try exact I;
      apply (bool_decide_unpack _); vm_compute; exact I.
  - reflexivity.
Defined.

(** [shop_filled] is built from the empty store by five requests. *)
Lemma store_inv_invariant_witness : store_inv shop_filled.
Proof.
  destruct store_inv_invariant as [_ Hreach].
  exact (Hreach [CreateProduct "P" 10 5; CreateProduct "Q" 7 2; CreateCart;
                 AddProductToCart 0 2 3; AddProductToCart 1 2 2]).
Defined.

(** *** What the requests leave alone *)

Lemma addProductToCart_frame product_id cart_id qty s :
  store_inv s →
  products (addProductToCart product_id cart_id qty s).1 = products s
  ∧ (∀ d, d ≠ cart_id →
       carts (addProductToCart product_id cart_id qty s).1 !! d = carts s !! d)
  ∧ (∀ j jt, cart_items s !! j = Some jt →
       CartItem.product_id jt ≠ product_id ∨ CartItem.cart_id jt ≠ cart_id →
       cart_items (addProductToCart product_id cart_id qty s).1 !! j = Some jt)
  ∧ (∀ cart, carts s !! cart_id = Some cart →
       ∃ cart', carts (addProductToCart product_id cart_id qty s).1 !! cart_id
                = Some cart'
                ∧ Cart.completed cart' = Cart.completed cart).
Proof.
  intros Hinv. rewrite addProductToCart_eq.
  case_decide as Hq; [split_and!; try done; intros; simplify_eq; eauto|].
  destruct (carts s !! cart_id) as [cart|] eqn:Hcart; [|split_and!; try done; intros; simplify_eq; eauto].
  destruct (products s !! product_id) as [product|]; [|split_and!; try done; intros; simplify_eq; eauto].
  unfold add_result.
  destruct (matching_items _ _ _) as [|[i it] l] eqn:Hfind; simpl.
  - split_and!; try done.
    + intros d Hd. by rewrite lookup_insert_ne.
    + intros j jt Hj _. rewrite lookup_insert_ne; [done|].
      intros <-.
      assert (next_id s < next_id s)%N by (eapply inv_items_below; eauto). lia.
    + intros ? [= <-]. rewrite lookup_insert_eq. eauto.
  - apply matching_items_head in Hfind as (Hi & Hp & Hc).
    split_and!; try done.
    + intros d Hd. by rewrite lookup_insert_ne.
    + intros j jt Hj Hpair. rewrite lookup_insert_ne; [done|].
      intros <-. rewrite Hi in Hj. injection Hj as <-. by destruct Hpair.
    + intros ? [= <-]. rewrite lookup_insert_eq. eauto.
Qed.

Lemma removeProductFromCart_frame product_id cart_id qty s :
  products (removeProductFromCart product_id cart_id qty s).1 = products s
  ∧ next_id (removeProductFromCart product_id cart_id qty s).1 = next_id s
  ∧ (∀ d, d ≠ cart_id →
       carts (removeProductFromCart product_id cart_id qty s).1 !! d = carts s !! d)
  ∧ (∀ j jt, cart_items s !! j = Some jt →
       CartItem.product_id jt ≠ product_id ∨ CartItem.cart_id jt ≠ cart_id →
       cart_items (removeProductFromCart product_id cart_id qty s).1 !! j = Some jt)
  ∧ (∀ cart, carts s !! cart_id = Some cart →
       ∃ cart', carts (removeProductFromCart product_id cart_id qty s).1 !! cart_id
                = Some cart'
                ∧ Cart.completed cart' = Cart.completed cart).
Proof.
  rewrite removeProductFromCart_eq.
  case_decide as Hq; [split_and!; try done; intros; simplify_eq; eauto|].
  destruct (carts s !! cart_id) as [cart|] eqn:Hcart; [|split_and!; try done; intros; simplify_eq; eauto].
  destruct (matching_items _ _ _) as [|[i it] l] eqn:Hfind; [split_and!; try done; intros; simplify_eq; eauto|].
  apply matching_items_head in Hfind as (Hi & Hp & Hc).
  destruct (products s !! CartItem.product_id it) as [product|];
    [|split_and!; try done; intros; simplify_eq; eauto].
  unfold remove_result. case_decide; simpl.
  - split_and!; try done.
    + intros d Hd. by rewrite lookup_insert_ne.
    + intros j jt Hj Hpair. rewrite lookup_delete_ne; [done|].
      intros <-. rewrite Hi in Hj. injection Hj as <-. by destruct Hpair.
    + intros ? [= <-]. rewrite lookup_insert_eq. eauto.
  - split_and!; try done.
    + intros d Hd. by rewrite lookup_insert_ne.
    + intros j jt Hj Hpair. rewrite lookup_insert_ne; [done|].
      intros <-. rewrite Hi in Hj. injection Hj as <-. by destruct Hpair.
    + intros ? [= <-]. rewrite lookup_insert_eq. eauto.
Qed.

(** X17. On a consistent store addProductToCart and removeProductFromCart
    touch only their own cart and their own line item: every other cart,
    every line item of another (cart, product) pair and every product is as
    before, and removeProductFromCart hands out no identifier. *)
Theorem add_remove_frame product_id cart_id qty s :
  store_inv s →
  (products (addProductToCart product_id cart_id qty s).1 = products s
   ∧ (∀ d, d ≠ cart_id →
        carts (addProductToCart product_id cart_id qty s).1 !! d = carts s !! d)
   ∧ (∀ j jt, cart_items s !! j = Some jt →
        CartItem.product_id jt ≠ product_id ∨ CartItem.cart_id jt ≠ cart_id →
        cart_items (addProductToCart product_id cart_id qty s).1 !! j = Some jt))
  ∧ (products (removeProductFromCart product_id cart_id qty s).1 = products s
     ∧ next_id (removeProductFromCart product_id cart_id qty s).1 = next_id s
     ∧ (∀ d, d ≠ cart_id →
          carts (removeProductFromCart product_id cart_id qty s).1 !! d
          = carts s !! d)
     ∧ (∀ j jt, cart_items s !! j = Some jt →
          CartItem.product_id jt ≠ product_id ∨ CartItem.cart_id jt ≠ cart_id →
          cart_items (removeProductFromCart product_id cart_id qty s).1 !! j
          = Some jt)).
Proof.
  intros Hinv. split.
  - destruct (addProductToCart_frame product_id cart_id qty s Hinv)
      as (Hp & Hc & Hi & _).
    by split_and!.
  - destruct (removeProductFromCart_frame product_id cart_id qty s)
      as (Hp & Hn & Hc & Hi & _).
    by split_and!.
Qed.

(** Adding Q to, and removing Q from, the cart of [shop_filled] leaves the
    line item of P (item 3) alone. *)
Lemma add_remove_frame_witness :
  cart_items (addProductToCart 1 2 1 shop_filled).1 !! 3%N
  = Some (CartItem.mk 0 2 3 30)
  ∧ cart_items (removeProductFromCart 1 2 1 shop_filled).1 !! 3%N
    = Some (CartItem.mk 0 2 3 30).
Proof.
  destruct (add_remove_frame 1 2 1 shop_filled)
    as ((_ & _ & Hadd) & (_ & _ & _ & Hremove)).
  - apply exec_all_inv, exec_all_inv, inv_empty.
  - split.
    + apply Hadd; [reflexivity|]. left. simpl. lia.
    + apply Hremove; [reflexivity|]. left. simpl. lia.
Defined.

(** *** Products and carts over time *)

Lemma quantity_of_nonneg p its :
  (∀ it, it ∈ its → 0 <= CartItem.qty it) → 0 <= quantity_of p its.
Proof.
  induction its as [|it its IH]; intros Hall; [done|].
  rewrite quantity_of_cons.
  assert (0 <= quantity_of p its) by (apply IH; intros jt Hjt; apply Hall; by right).
  assert (0 <= CartItem.qty it) by (apply Hall; by left).
  case_decide; lia.
Qed.

Lemma exec_product r s p prod :
  store_inv s → products s !! p = Some prod →
  ∃ prod', products (exec r s) !! p = Some prod'
    ∧ Product.title prod' = Product.title prod
    ∧ Product.price prod' = Product.price prod
    ∧ Product.inventory_count prod' <= Product.inventory_count prod
    ∧ ((∀ c, r ≠ CompleteCart c) → prod' = prod).
Proof.
  intros Hinv Hp. unfold exec, root, bind. destruct r.
  - rewrite getCart_eq. destruct (carts s !! cart_id); simpl; eauto 10 with lia.
  - unfold getProductById. unfold_op.
    destruct (products s !! product_id); simpl; eauto 10 with lia.
  - simpl. eauto 10 with lia.
  - simpl. eauto 10 with lia.
  - rewrite createCart_eq. simpl. eauto 10 with lia.
  - rewrite createProduct_eq. case_decide; simpl; [eauto 10 with lia|].
    exists prod.
    rewrite lookup_insert_ne; [split_and!; try done; lia|].
    intros <-.
    assert (next_id s < next_id s)%N by (eapply inv_products_below; eauto). lia.
  - destruct (addProductToCart_frame product_id cart_id qty s Hinv) as (Hprods & _).
    destruct (addProductToCart _ _ _ s) as [s' []]; simpl in *;
      rewrite Hprods; eauto 10 with lia.
  - destruct (removeProductFromCart_frame product_id cart_id qty s) as (Hprods & _).
    destruct (removeProductFromCart _ _ _ s) as [s' []]; simpl in *;
      rewrite Hprods; eauto 10 with lia.
  - destruct (completeCart cart_id s) as [s' [e|r]] eqn:Hrun; simpl.
    + apply completeCart_threw in Hrun as [-> _]. exists prod.
      split_and!; try done; lia.
    + apply completeCart_succeeded in Hrun
        as (cart & m & Hcart & _ & Hall & -> & _ & Hm).
      simpl. rewrite Hm, Hp. simpl. eexists. split; [done|].
      unfold take_stock. simpl. split_and!; try done.
      * assert (0 <= quantity_of p (resolved (cart_items s) (Cart.items cart))).
        { apply quantity_of_nonneg. intros it Hit. unfold resolved in Hit.
          apply list_elem_of_omap in Hit as (i & _ & Hit).
          pose proof (inv_qty s Hinv i it Hit). lia. }
        lia.
      * intros Hne. by destruct (Hne cart_id).
Qed.

(** X18. Over any sequence of requests from a consistent store a product
    is never deleted, its title and price never change, and its
    inventory_count never goes up; a single request other than completeCart
    leaves the product exactly as it was. *)
Theorem products_over_time s p prod :
  store_inv s →
  products s !! p = Some prod →
  (∀ rs, ∃ prod', products (exec_all rs s) !! p = Some prod'
     ∧ Product.title prod' = Product.title prod
     ∧ Product.price prod' = Product.price prod
     ∧ Product.inventory_count prod' <= Product.inventory_count prod)
  ∧ (∀ r, (∀ c, r ≠ CompleteCart c) → products (exec r s) !! p = Some prod).
Proof.
  intros Hinv Hp. split.
  - intros rs. revert s prod Hinv Hp.
    induction rs as [|r rs IH]; intros s prod Hinv Hp.
    { exists prod. split_and!; try done; lia. }
    destruct (exec_product r s p prod Hinv Hp) as (prod1 & Hp1 & Ht & Hpr & Hle & _).
    destruct (IH (exec r s) prod1 (exec_inv r s Hinv) Hp1)
      as (prod' & Hp' & Ht' & Hpr' & Hle').
    exists prod'. simpl. split_and!; try done; [congruence..|lia].
  - intros r Hr.
    destruct (exec_product r s p prod Hinv Hp) as (prod1 & Hp1 & _ & _ & _ & Heq).
    by rewrite Hp1, (Heq Hr).
Qed.

(** Product P of [shop] after the cart took 3 of it and was completed. *)
Lemma products_over_time_witness :
  (∀ rs, ∃ prod', products (exec_all rs shop) !! 0%N = Some prod'
     ∧ Product.title prod' = "P"
     ∧ Product.price prod' = 10
     ∧ Product.inventory_count prod' <= 5)
  ∧ (∀ r, (∀ c, r ≠ CompleteCart c) →
       products (exec r shop) !! 0%N = Some (Product.mk "P" 10 5)).
Proof.
  apply (products_over_time shop 0%N (Product.mk "P" 10 5)).
  - apply exec_all_inv, inv_empty.
  - reflexivity.
Defined.

Lemma exec_cart r s c cart :
  store_inv s → carts s !! c = Some cart →
  ∃ cart', carts (exec r s) !! c = Some cart'
    ∧ (Cart.completed cart = true → Cart.completed cart' = true).
Proof.
  intros Hinv Hcart. unfold exec, root, bind. destruct r.
  - rewrite getCart_eq. destruct (carts s !! cart_id); simpl; eauto.
  - unfold getProductById. unfold_op.
    destruct (products s !! product_id); simpl; eauto.
  - simpl. eauto.
  - simpl. eauto.
  - rewrite createCart_eq. simpl. exists cart.
    rewrite lookup_insert_ne; [done|]. intros <-.
    assert (next_id s < next_id s)%N by (eapply inv_carts_below; eauto). lia.
  - rewrite createProduct_eq. case_decide; simpl; eauto.
  - destruct (addProductToCart_frame product_id cart_id qty s Hinv)
      as (_ & Hother & _ & Hsame).
    destruct (decide (c = cart_id)) as [->|Hne].
    + destruct (Hsame cart Hcart) as (cart' & Hcart' & Hflag).
      destruct (addProductToCart _ _ _ s) as [s' []]; simpl in *;
        exists cart'; split; try done; congruence.
    + specialize (Hother c Hne).
      destruct (addProductToCart _ _ _ s) as [s' []]; simpl in *;
        exists cart; by rewrite Hother.
  - destruct (removeProductFromCart_frame product_id cart_id qty s)
      as (_ & _ & Hother & _ & Hsame).
    destruct (decide (c = cart_id)) as [->|Hne].
    + destruct (Hsame cart Hcart) as (cart' & Hcart' & Hflag).
      destruct (removeProductFromCart _ _ _ s) as [s' []]; simpl in *;
        exists cart'; split; try done; congruence.
    + specialize (Hother c Hne).
      destruct (removeProductFromCart _ _ _ s) as [s' []]; simpl in *;
        exists cart; by rewrite Hother.
  - destruct (completeCart cart_id s) as [s' [e|r]] eqn:Hrun; simpl.
    + apply completeCart_threw in Hrun as [-> _]. eauto.
    + apply completeCart_succeeded in Hrun
        as (ccart & m & Hccart & _ & _ & -> & _ & _).
      simpl. destruct (decide (cart_id = c)) as [->|Hne].
      * rewrite lookup_insert_eq. eauto.
      * rewrite lookup_insert_ne by done. eauto.
Qed.

(** X19. Over any sequence of requests from a consistent store a cart is
    never deleted and, once completed, stays completed. *)
Theorem carts_over_time rs s c cart :
  store_inv s →
  carts s !! c = Some cart →
  ∃ cart', carts (exec_all rs s) !! c = Some cart'
    ∧ (Cart.completed cart = true → Cart.completed cart' = true).
Proof.
  revert s cart. induction rs as [|r rs IH]; intros s cart Hinv Hcart.
  { exists cart. done. }
  destruct (exec_cart r s c cart Hinv Hcart) as (cart1 & Hcart1 & Hflag1).
  destruct (IH (exec r s) cart1 (exec_inv r s Hinv) Hcart1)
    as (cart' & Hcart' & Hflag').
  exists cart'. simpl. split; [done|]. auto.
Qed.

(** The completed cart of [shop_completed] after further requests on it. *)
Lemma carts_over_time_witness :
  ∃ cart', carts (exec_all [RemoveProductFromCart 0 2 9; CreateCart;
                             AddProductToCart 1 2 1; CompleteCart 2]
                    shop_completed) !! 2%N = Some cart'
    ∧ (Cart.completed (Cart.mk [3%N; 4%N] 44 true) = true →
       Cart.completed cart' = true).
Proof.
  apply (carts_over_time _ shop_completed 2%N (Cart.mk [3%N; 4%N] 44 true)).
  - apply exec_inv, exec_all_inv, exec_all_inv, inv_empty.
  - reflexivity.
Defined.

(** *** What the mutations return, and getCart *)

Lemma getCart_stored cart_id s cart :
  store_inv s → carts s !! cart_id = Some cart →
  getCart cart_id s =
    (s, inr (CartObject.mk cart_id (Cart.items cart) (Cart.total cart) false)).
Proof.
  intros Hinv Hcart. rewrite getCart_eq, Hcart.
  by rewrite (inv_populated s cart_id cart).
Qed.

Lemma addProductToCart_returns product_id cart_id qty s s' r :
  store_inv s → addProductToCart product_id cart_id qty s = (s', inr r) →
  ∃ cart', carts s' !! cart_id = Some cart'
    ∧ r = CartObject.mk cart_id (Cart.items cart') (Cart.total cart')
            (Cart.completed cart').
Proof.
  intros Hinv. rewrite addProductToCart_eq. case_decide; [done|].
  destruct (carts s !! cart_id) as [cart|] eqn:Hcart; [|done].
  destruct (products s !! product_id) as [product|]; [|done].
  unfold add_result. rewrite (inv_populated s cart_id cart) by done.
  destruct (matching_items _ _ _) as [|[i it] l]; intros [= <- <-]; simpl;
    rewrite lookup_insert_eq; eauto.
Qed.

Lemma removeProductFromCart_returns product_id cart_id qty s s' r :
  removeProductFromCart product_id cart_id qty s = (s', inr r) →
  ∃ cart', carts s' !! cart_id = Some cart'
    ∧ r = CartObject.mk cart_id (Cart.items cart') (Cart.total cart')
            (Cart.completed cart').
Proof.
  rewrite removeProductFromCart_eq. case_decide; [done|].
  destruct (carts s !! cart_id) as [cart|] eqn:Hcart; [|done].
  destruct (matching_items _ _ _) as [|[i it] l]; [done|].
  destruct (products s !! CartItem.product_id it) as [product|]; [|done].
  unfold remove_result. case_decide; intros [= <- <-]; simpl;
    rewrite lookup_insert_eq; eauto.
Qed.

(** X20. On a consistent store the record that a successful
    addProductToCart, removeProductFromCart or completeCart returns carries
    the cart's identifier and the total and completed flag of the cart as
    it is stored afterwards, and a getCart of that cart right after succeeds,
    leaves the store as it is and reports the same identifier and total,
    with completed = false. *)
Theorem mutations_return_stored_cart s :
  store_inv s →
  (∀ product_id cart_id qty s' r,
     addProductToCart product_id cart_id qty s = (s', inr r) →
     ∃ cart' r',
       carts s' !! cart_id = Some cart'
       ∧ CartObject._id r = cart_id
       ∧ CartObject.total r = Cart.total cart'
       ∧ CartObject.completed r = Cart.completed cart'
       ∧ getCart cart_id s' = (s', inr r')
       ∧ CartObject._id r' = cart_id
       ∧ CartObject.total r' = Cart.total cart'
       ∧ CartObject.completed r' = false)
  ∧ (∀ product_id cart_id qty s' r,
       removeProductFromCart product_id cart_id qty s = (s', inr r) →
       ∃ cart' r',
         carts s' !! cart_id = Some cart'
         ∧ CartObject._id r = cart_id
         ∧ CartObject.total r = Cart.total cart'
         ∧ CartObject.completed r = Cart.completed cart'
         ∧ getCart cart_id s' = (s', inr r')
         ∧ CartObject._id r' = cart_id
         ∧ CartObject.total r' = Cart.total cart'
         ∧ CartObject.completed r' = false)
  ∧ (∀ cart_id s' r,
       completeCart cart_id s = (s', inr r) →
       ∃ cart' r',
         carts s' !! cart_id = Some cart'
         ∧ CartObject._id r = cart_id
         ∧ CartObject.total r = Cart.total cart'
         ∧ CartObject.completed r = Cart.completed cart'
         ∧ getCart cart_id s' = (s', inr r')
         ∧ CartObject._id r' = cart_id
         ∧ CartObject.total r' = Cart.total cart'
         ∧ CartObject.completed r' = false).
Proof.
  intros Hinv. split_and!.
  - intros product_id cart_id qty s' r Hrun.
    pose proof (addProductToCart_inv product_id cart_id qty s Hinv) as Hinv'.
    rewrite Hrun in Hinv'. simpl in Hinv'.
    destruct (addProductToCart_returns _ _ _ _ _ _ Hinv Hrun) as (cart' & Hcart' & ->).
    exists cart', (CartObject.mk cart_id (Cart.items cart') (Cart.total cart') false).
    split_and!; try done. by apply getCart_stored.
  - intros product_id cart_id qty s' r Hrun.
    pose proof (removeProductFromCart_inv product_id cart_id qty s Hinv) as Hinv'.
    rewrite Hrun in Hinv'. simpl in Hinv'.
    destruct (removeProductFromCart_returns _ _ _ _ _ _ Hrun)
      as (cart' & Hcart' & ->).
    exists cart', (CartObject.mk cart_id (Cart.items cart') (Cart.total cart') false).
    split_and!; try done. by apply getCart_stored.
  - intros cart_id s' r Hrun.
    pose proof (completeCart_inv cart_id s Hinv) as Hinv'.
    rewrite Hrun in Hinv'. simpl in Hinv'.
    apply completeCart_succeeded in Hrun
      as (cart & m & Hcart & _ & _ & -> & -> & _).
    exists (Cart.mk (Cart.items cart) (Cart.total cart) true),
      (CartObject.mk cart_id (Cart.items cart) (Cart.total cart) false).
    split; [simpl; by rewrite lookup_insert_eq|].
    split_and!; try done.
    apply (getCart_stored _ _ (Cart.mk (Cart.items cart) (Cart.total cart) true));
      [done|]. simpl. by rewrite lookup_insert_eq.
Qed.

(** Adding 1 of Q to the cart of [shop_filled], then getCart. *)
Lemma mutations_return_stored_cart_witness :
  ∃ cart' r',
    carts (exec (AddProductToCart 1 2 1) shop_filled) !! 2%N = Some cart'
    ∧ CartObject._id (CartObject.mk 2 [3%N; 4%N] 51 false) = 2%N
    ∧ CartObject.total (CartObject.mk 2 [3%N; 4%N] 51 false) = Cart.total cart'
    ∧ CartObject.completed (CartObject.mk 2 [3%N; 4%N] 51 false)
      = Cart.completed cart'
    ∧ getCart 2 (exec (AddProductToCart 1 2 1) shop_filled) =
        (exec (AddProductToCart 1 2 1) shop_filled, inr r')
    ∧ CartObject._id r' = 2%N
    ∧ CartObject.total r' = Cart.total cart'
    ∧ CartObject.completed r' = false.
Proof.
  destruct (mutations_return_stored_cart shop_filled) as (Hadd & _ & _).
  - apply exec_all_inv, exec_all_inv, inv_empty.
  - apply (Hadd 1%N 2%N 1). reflexivity.
Defined.

(** *** addProductToCart on a consistent store, and removing twice *)



(** X22. On a consistent store, once a removeProductFromCart has taken
    all of a line item (qty at least what it held), the pair has no line
    item left: a further removeProductFromCart of that product from that
    cart, with any positive qty, throws "product does not belong to cart"
    and changes nothing. *)
Theorem remove_after_removal product_id cart_id qty qty' s i it :
  store_inv s →
  cart_items s !! i = Some it →
  CartItem.product_id it = product_id →
  CartItem.cart_id it = cart_id →
  CartItem.qty it <= qty →
  0 < qty' →
  ∃ s1 r1,
    removeProductFromCart product_id cart_id qty s = (s1, inr r1)
    ∧ removeProductFromCart product_id cart_id qty' s1 = (s1, inl ItemNotInCart).
Proof.
  intros Hinv Hi Hp Hc Hle Hq'.
  destruct (inv_owned s Hinv i it Hi) as (cart & Hcart & _).
  destruct (inv_product s Hinv i it Hi) as [product Hprod].
  rewrite Hc in Hcart. rewrite Hp in Hprod.
  destruct (remove_all s product_id cart_id qty cart product i it)
    as (k & Hk & Hrun); try done.
  eexists _, _. split; [exact Hrun|].
  rewrite removeProductFromCart_eq, decide_False by lia. simpl.
  rewrite lookup_insert_eq.
  assert (matching_items product_id cart_id (delete i (cart_items s)) = []) as ->.
  { apply matching_items_nil. intros j jt Hj [Hjp Hjc].
    apply lookup_delete_Some in Hj as [Hne Hj]. apply Hne.
    eapply (inv_pair s Hinv); eauto; congruence. }
  done.
Qed.

(** Removing all of P from the cart of [shop_filled], then 1 more. *)
Lemma remove_after_removal_witness :
  ∃ s1 r1,
    removeProductFromCart 0 2 3 shop_filled = (s1, inr r1)
    ∧ removeProductFromCart 0 2 1 s1 = (s1, inl ItemNotInCart).
Proof.
  apply (remove_after_removal 0 2 3 1 shop_filled 3%N (CartItem.mk 0 2 3 30)).
  - apply exec_all_inv, exec_all_inv, inv_empty.
  - reflexivity.
  - reflexivity.
  - reflexivity.
  - simpl. lia.
  - lia.
Defined.
